(** * fetchall: concurrent URL fetch (chapter-one/1.6/code/fetchall/main.go)

    A shallow embedding of the [fetchall] exercise: [main] starts one
    goroutine per command-line argument, every goroutine runs [fetch] and
    sends one string on the unbuffered channel [ch], and [main] receives and
    prints as many strings as there are arguments before printing the total
    elapsed time.

    The definitions come in four layers:
    - [GoFmt]: the fragment of Go's [fmt] and [time] packages the program
      calls ([Sprint], [Sprintf], [Sprintln], [Duration.Seconds]);
    - [Lang]: programs as trees of the effects the code performs, and the
      labelled semantics of one goroutine;
    - [Sched]: the goroutine pool with the rendezvous channel, as an
      executable step function driven by a schedule;
    - [Fetchall]: the two functions of main.go and the shape of their runs.

    The lemmas follow in the same order ([GoFmtFacts], [LangFacts],
    [SchedFacts], [FetchallFacts]); [FetchallSpec] holds the statements
    about the dispatcher, and [FetchallMore] further facts about its runs:
    bodies, elapsed times and the order in which goroutines are started.

    Two more programs of the chapter are embedded on the same [fmt]
    fragment: [Fetch], the sequential fetch that stops at the first
    failure, with its facts in [FetchFacts]; and [Dup], which counts the
    lines of its input in a map and prints the repeated ones, with its
    facts in [DupFacts]. *)

From Stdlib Require Import ZArith String Ascii List Lia DecimalString Sorted Permutation.
From stdpp Require Import base list gmap.
Import ListNotations.

(* stdpp's [strings] blocks [simpl] on string append; unfold it as any
   other fixpoint. *)
Arguments String.append !s1 s2.

Local Open Scope Z_scope.
Local Open Scope list_scope.

(** ** The fragment of Go's standard library used by main.go *)

Module GoFmt.

(** Go's [error] interface: all the program ever does with an error value
    is to print it, which calls its [Error()] method. *)
Record error : Type := mkError { Error : string }.

(** A finite, non-NaN [float64] is an integer multiple of a power of two:
    [f_mant * 2 ^ f_exp]. *)
Record float64 : Type := mkFloat { f_mant : Z; f_exp : Z }.

(** [time.Duration] is an [int64] count of nanoseconds. *)
Definition Duration : Type := Z.
Definition maxDuration : Duration := 2 ^ 63 - 1.
Definition minDuration : Duration := - 2 ^ 63.
Definition Second : Duration := 1000000000.

(** Nearest integer to [a / b], ties to even ([0 <= a], [0 < b]). *)
Definition rne_div (a b : Z) : Z :=
  let q := a / b in
  let r := a mod b in
  if 2 * r <? b then q
  else if b <? 2 * r then q + 1
  else if Z.even q then q else q + 1.

(** The fraction [num / den] scaled by [2 ^ (- e)]. *)
Definition scale_frac (num den e : Z) : Z * Z :=
  if 0 <=? e then (num, den * 2 ^ e) else (num * 2 ^ (- e), den).

(** Round the non-negative rational [num / den] to binary64 (53 bits of
    mantissa, round to nearest even).  Subnormals and overflow do not arise
    for durations: the values are [0] or lie between [1e-9] and [1e10]. *)
Definition round53 (num den : Z) : float64 :=
  if num =? 0 then mkFloat 0 0
  else
    let e0 := Z.log2 num - Z.log2 den - 52 in
    let '(a0, b0) := scale_frac num den e0 in
    let e := if a0 / b0 <? 2 ^ 52 then e0 - 1 else e0 in
    let '(a, b) := scale_frac num den e in
    mkFloat (rne_div a b) e.

Definition fneg (x : float64) : float64 := mkFloat (- f_mant x) (f_exp x).

(** [float64(n)] for an integer below [2 ^ 53] is exact. *)
Definition float_of_int (n : Z) : float64 := mkFloat n 0.

(** [x / y] and [x + y] on non-negative floats, correctly rounded. *)
Definition fdiv (x y : float64) : float64 :=
  let e := f_exp x - f_exp y in
  if 0 <=? e then round53 (f_mant x * 2 ^ e) (f_mant y)
  else round53 (f_mant x) (f_mant y * 2 ^ (- e)).

Definition fadd (x y : float64) : float64 :=
  let e := Z.min (f_exp x) (f_exp y) in
  round53 (f_mant x * 2 ^ (f_exp x - e) + f_mant y * 2 ^ (f_exp y - e))
          (2 ^ (- e)).

(** [func (d Duration) Seconds() float64]:
    [sec := d / Second; nsec := d % Second;
     return float64(sec) + float64(nsec)/1e9].
    Go's integer division truncates, so a negative duration is the mirror
    image of its absolute value. *)
Definition Seconds_abs (d : Z) : float64 :=
  let sec := d / Second in
  let nsec := d mod Second in
  fadd (float_of_int sec) (fdiv (float_of_int nsec) (float_of_int Second)).

Definition Seconds (d : Duration) : float64 :=
  if d <? 0 then fneg (Seconds_abs (- d)) else Seconds_abs d.

(** Decimal rendering of an integer, as [strconv.Itoa]. *)
Definition itoa (n : Z) : string := NilZero.string_of_int (Z.to_int n).

Fixpoint spaces (n : nat) : string :=
  match n with
  | O => EmptyString
  | S n' => String " "%char (spaces n')
  end.

(** A minimum field width pads on the left with spaces; a longer text is
    never truncated. *)
Definition pad_left (width : nat) (s : string) : string :=
  (spaces (width - String.length s) ++ s)%string.

Definition digit (d : Z) : ascii := ascii_of_nat (48 + Z.to_nat d).

(** The last [k] decimal digits of [v], written in front of [acc]. *)
Fixpoint last_digits (k : nat) (v : Z) (acc : string) : string :=
  match k with
  | O => acc
  | S k' => last_digits k' (v / 10) (String (digit (v mod 10)) acc)
  end.

(** The verb [%.<prec>f] on a non-negative float: the exact decimal
    expansion rounded (ties to even) to [prec] digits after the point. *)
Definition fixed_abs (prec : nat) (m e : Z) : string :=
  let p := 10 ^ Z.of_nat prec in
  let units := if 0 <=? e then m * 2 ^ e * p else rne_div (m * p) (2 ^ (- e)) in
  match prec with
  | O => itoa (units / p)
  | _ => (itoa (units / p) ++ "." ++ last_digits prec (units mod p) EmptyString)%string
  end.

Definition fmt_fixed (prec : nat) (x : float64) : string :=
  if f_mant x <? 0 then ("-" ++ fixed_abs prec (- f_mant x) (f_exp x))%string
  else fixed_abs prec (f_mant x) (f_exp x).


(** Operands of the printing functions ([...interface{}]). *)
Inductive Value : Type :=
| VString (s : string)
| VInt (n : Z)
| VFloat (x : float64)
| VError (e : error).

Definition nl : string := String (ascii_of_nat 10) EmptyString.

(** One operand under one verb.  Only the combinations the programs use
    are modelled: [%v] and [%s] on strings and errors (an error prints its
    [Error()] text), [%v] and [%d] on integers, [%f] on floats (default
    precision 6).  Any other combination gives a bad-verb marker without
    the operand detail that Go prints. *)
Definition fmt_verb (verb : ascii) (prec : option nat) (v : Value) : string :=
  match v with
  | VString s =>
      if (verb =? "v")%char || (verb =? "s")%char then s
      else ("%!" ++ String verb "(string)")%string
  | VError e =>
      if (verb =? "v")%char || (verb =? "s")%char then Error e
      else ("%!" ++ String verb "(error)")%string
  | VInt n =>
      if (verb =? "v")%char || (verb =? "d")%char then itoa n
      else ("%!" ++ String verb "(int)")%string
  | VFloat x =>
      if (verb =? "f")%char then fmt_fixed (default 6%nat prec) x
      else ("%!" ++ String verb "(float64)")%string
  end.

Definition is_digit (c : ascii) : bool :=
  (48 <=? nat_of_ascii c)%nat && (nat_of_ascii c <=? 57)%nat.
Definition digit_val (c : ascii) : nat := (nat_of_ascii c - 48)%nat.

(** Where the scanner is inside a format: in literal text, in the width
    digits after the percent sign, or in the precision digits after the
    point. *)
Inductive Mode : Type :=
| InText
| InWidth (w : nat)
| InPrec (w : nat) (p : nat).

(** [Sprintf]: literal text is copied; a directive (percent sign, width,
    point and precision, verb) consumes the next operand and pads it on the
    left to the width; a doubled percent sign is a percent sign; a
    directive without an operand prints the MISSING marker.  Flags are not
    modelled, and left-over operands are marked without their detail. *)
Fixpoint scan (mode : Mode) (format : string) (args : list Value) : string :=
  let directive c rest w p :=
    if (c =? "%")%char then String "%" (scan InText rest args)
    else match args with
         | [] => ("%!" ++ String c "(MISSING)" ++ scan InText rest [])%string
         | v :: args' =>
             (pad_left w (fmt_verb c p v) ++ scan InText rest args')%string
         end in
  match format with
  | EmptyString =>
      match mode, args with
      | InText, [] => EmptyString
      | InText, _ :: _ => "%!(EXTRA)"%string
      | _, _ => "%!(NOVERB)"%string
      end
  | String c rest =>
      match mode with
      | InText =>
          if (c =? "%")%char then scan (InWidth 0) rest args
          else String c (scan InText rest args)
      | InWidth w =>
          if is_digit c then scan (InWidth (10 * w + digit_val c)) rest args
          else if (c =? ".")%char then scan (InPrec w 0) rest args
          else directive c rest w None
      | InPrec w p =>
          if is_digit c then scan (InPrec w (10 * p + digit_val c)) rest args
          else directive c rest w (Some p)
      end
  end.

Definition Sprintf (format : string) (args : list Value) : string :=
  scan InText format args.

Definition is_string (v : Value) : bool :=
  match v with VString _ => true | _ => false end.

(** [Sprint]: every operand in its default format ([%v]); a space is added
    between two operands when neither is a string. *)
Fixpoint doPrint (prevString : bool) (first : bool) (args : list Value) : string :=
  match args with
  | [] => EmptyString
  | v :: rest =>
      ((if negb first && negb (is_string v) && negb prevString then " " else "")
       ++ fmt_verb "v" None v ++ doPrint (is_string v) false rest)%string
  end.

Definition Sprint (args : list Value) : string := doPrint false true args.

(** [Sprintln]: operands in their default format, always separated by a
    space, followed by a newline. *)
Fixpoint doPrintln (first : bool) (args : list Value) : string :=
  match args with
  | [] => nl
  | v :: rest =>
      ((if first then "" else " ") ++ fmt_verb "v" None v ++ doPrintln false rest)%string
  end.

Definition Sprintln (args : list Value) : string := doPrintln true args.

End GoFmt.

(** ** Programs and the semantics of one goroutine *)

Module Lang.
Import GoFmt.

(** A reading of the monotonic clock, in nanoseconds. *)
Definition Time : Type := Z.

(** Channels are named by the order of their creation. *)
Definition chan : Type := nat.

(** The body stream of a response, an opaque handle. *)
Definition ReadCloser : Type := nat.
Record Response : Type := mkResponse { Body : ReadCloser }.

(** [t.Sub(u)]: the difference of two clock readings, saturated to the
    range of [Duration]. *)
Definition Sub (t u : Time) : Duration :=
  Z.min maxDuration (Z.max minDuration (t - u)).

(** A Go function body as the tree of the effects it performs; the
    continuation of an effect takes what the effect returns. *)
Inductive Prog : Type :=
| Return
| TimeNow (k : Time -> Prog)
| TimeSince (start : Time) (k : Duration -> Prog)
| MakeChan (k : chan -> Prog)
| HttpGet (url : string) (k : Response + error -> Prog)
| IoCopyDiscard (body : ReadCloser) (k : Z * option error -> Prog)
| BodyClose (body : ReadCloser) (k : Prog)
| ChanSend (ch : chan) (v : string) (k : Prog)
| ChanRecv (ch : chan) (k : string -> Prog)
| GoStmt (g : Prog) (k : Prog)
| Stdout (s : string) (k : Prog)
| OsExit (code : Z).

(** What one step of a goroutine does, as seen from outside. *)
Inductive Action : Type :=
| ANow (t : Time)
| ASince (d : Duration)
| AMake (ch : chan)
| AGet (url : string) (r : Response + error)
| ACopy (body : ReadCloser) (n : Z) (e : option error)
| AClose (body : ReadCloser)
| ASend (ch : chan) (v : string)
| ARecv (ch : chan) (v : string)
| AGo (g : Prog)
| APrint (s : string)
| AExit (code : Z).

(** What the world answers to a step: the outcome of a transport call, of
    reading a body, or the value handed over by a sender. *)
Inductive Reply : Type :=
| RNone
| RGet (r : Response + error)
| RCopy (n : Z) (e : option error)
| RMsg (v : string).

(** One step of a goroutine at clock reading [now], where [fresh] names
    the next channel to be made.  [io.Copy] reports a byte count in the
    non-negative range of [int64]. *)
Definition fire (now : Time) (fresh : chan) (p : Prog) (r : Reply)
  : option (Action * Prog) :=
  match p with
  | Return => None
  | TimeNow k => Some (ANow now, k now)
  | TimeSince start k => let d := Sub now start in Some (ASince d, k d)
  | MakeChan k => Some (AMake fresh, k fresh)
  | HttpGet url k =>
      match r with RGet x => Some (AGet url x, k x) | _ => None end
  | IoCopyDiscard body k =>
      match r with
      | RCopy n e =>
          if (0 <=? n) && (n <? 2 ^ 63) then Some (ACopy body n e, k (n, e))
          else None
      | _ => None
      end
  | BodyClose body k => Some (AClose body, k)
  | ChanSend ch v k => Some (ASend ch v, k)
  | ChanRecv ch k =>
      match r with RMsg v => Some (ARecv ch v, k v) | _ => None end
  | GoStmt g k => Some (AGo g, k)
  | Stdout s k => Some (APrint s, k)
  | OsExit code => Some (AExit code, Return)
  end.

Definition is_comm (a : Action) : bool :=
  match a with ASend _ _ | ARecv _ _ => true | _ => false end.

(** The actions of a goroutine that only sends. *)
Definition sender_action (a : Action) : bool :=
  match a with
  | ANow _ | ASince _ | AGet _ _ | ACopy _ _ _ | AClose _ | ASend _ _ => true
  | _ => false
  end.

(** The actions of [main]: everything but the transport and sending. *)
Definition main_action (a : Action) : bool :=
  match a with
  | ANow _ | ASince _ | AMake _ | AGo _ | ARecv _ _ | APrint _ => true
  | _ => false
  end.

(** The error a step ran into, if it is a transport call or a body read
    that failed. *)
Definition failure_of (a : Action) : option error :=
  match a with
  | AGet _ (inr e) => Some e
  | ACopy _ _ (Some e) => Some e
  | _ => None
  end.

(** Whether a run met a transport failure. *)
Definition transport_failed (l : list (Time * Action)) : bool :=
  existsb (fun e => match failure_of (snd e) with Some _ => true | None => false end) l.

(** A run of one goroutine: the stamped actions that lead from one program
    point to another, whatever the world answers. *)
Inductive walk : Prog -> list (Time * Action) -> Prog -> Prop :=
| walk_done p : walk p [] p
| walk_step p now fresh r a p' l q :
    fire now fresh p r = Some (a, p') ->
    walk p' l q ->
    walk p ((now, a) :: l) q.

(** The values a run sends, in order. *)
Definition sent_values (l : list (Time * Action)) : list (chan * string) :=
  omap (fun e => match snd e with ASend c v => Some (c, v) | _ => None end) l.

(** The values a run receives, in order. *)
Definition received_values (l : list (Time * Action)) : list (chan * string) :=
  omap (fun e => match snd e with ARecv c v => Some (c, v) | _ => None end) l.

(** What a run prints, and the goroutines it starts, in order. *)
Definition printed (l : list (Time * Action)) : list string :=
  omap (fun e => match snd e with APrint x => Some x | _ => None end) l.

Definition started_in (l : list (Time * Action)) : list Prog :=
  omap (fun e => match snd e with AGo g => Some g | _ => None end) l.

(** [sender c n p]: on every path, [p] sends exactly [n] values on the
    channel [c]; besides that it only reads the clock, calls the transport
    and reads and closes bodies. *)
Inductive sender (c : chan) : nat -> Prog -> Prop :=
| sender_Return : sender c 0 Return
| sender_Now n k : (forall t, sender c n (k t)) -> sender c n (TimeNow k)
| sender_Since n start k :
    (forall d, sender c n (k d)) -> sender c n (TimeSince start k)
| sender_Get n url k : (forall x, sender c n (k x)) -> sender c n (HttpGet url k)
| sender_Copy n body k :
    (forall x, sender c n (k x)) -> sender c n (IoCopyDiscard body k)
| sender_Close n body k : sender c n k -> sender c n (BodyClose body k)
| sender_Send n v k : sender c n k -> sender c (S n) (ChanSend c v k).

(** [collector c a p]: when [a] values are still to be sent on [c] by the
    goroutines already running, [p] starts further senders and receives,
    on every path, exactly what all of them send: it never waits for a
    value that nobody is going to send, and leaves none behind. *)
Inductive collector (c : chan) : nat -> Prog -> Prop :=
| collector_Return : collector c 0 Return
| collector_Now a k : (forall t, collector c a (k t)) -> collector c a (TimeNow k)
| collector_Since a start k :
    (forall d, collector c a (k d)) -> collector c a (TimeSince start k)
| collector_Print a s k : collector c a k -> collector c a (Stdout s k)
| collector_Go a n g k :
    sender c n g -> collector c (a + n) k -> collector c a (GoStmt g k)
| collector_Recv a k :
    (forall v, collector c a (k v)) -> collector c (S a) (ChanRecv c k).

(** The part of [main] before the channel exists. *)
Inductive opener : Prog -> Prop :=
| opener_Now k : (forall t, opener (k t)) -> opener (TimeNow k)
| opener_Make k : (forall c, collector c 0 (k c)) -> opener (MakeChan k).

(** [cost n p]: [p], together with every goroutine it starts, performs at
    most [n] actions. *)
Inductive cost : nat -> Prog -> Prop :=
| cost_Return n : cost n Return
| cost_Now n k : (forall t, cost n (k t)) -> cost (S n) (TimeNow k)
| cost_Since n start k : (forall d, cost n (k d)) -> cost (S n) (TimeSince start k)
| cost_Make n k : (forall c, cost n (k c)) -> cost (S n) (MakeChan k)
| cost_Get n url k : (forall x, cost n (k x)) -> cost (S n) (HttpGet url k)
| cost_Copy n body k : (forall x, cost n (k x)) -> cost (S n) (IoCopyDiscard body k)
| cost_Close n body k : cost n k -> cost (S n) (BodyClose body k)
| cost_Send n ch v k : cost n k -> cost (S n) (ChanSend ch v k)
| cost_Recv n ch k : (forall v, cost n (k v)) -> cost (S n) (ChanRecv ch k)
| cost_Go n m g k : cost n g -> cost m k -> cost (S (n + m)) (GoStmt g k)
| cost_Print n s k : cost n k -> cost (S n) (Stdout s k)
| cost_Exit n code : cost (S n) (OsExit code).

End Lang.

(** ** The goroutine pool *)

Module Sched.
Import GoFmt Lang.

(** A log entry: when, which goroutine, what it did. *)
Definition Entry : Type := Time * nat * Action.

(** The running process.  Goroutine [0] is [main]; a goroutine that has
    returned stays in the pool as [Return].  [log] is a history of all that
    happened, kept for the statements; no step reads it. *)
Record State : Type := mkState {
  clock : Time;
  chans : nat;
  pool : list Prog;
  stdout : list string;
  log : list Entry;
  status : option Z
}.

(** The process is over when [main] has returned or [os.Exit] was called. *)
Definition finished (s : State) : bool :=
  match status s, pool s with
  | Some _, _ => true
  | None, Return :: _ => true
  | None, _ => false
  end.

(** A scheduling decision: goroutine [i] takes a step of its own after
    [dt] nanoseconds, with the world answering [r]; or goroutine [i], ready
    to send, hands its value to goroutine [j], ready to receive on the same
    channel. *)
Inductive Choice : Type :=
| Run (i : nat) (dt : Z) (r : Reply)
| Sync (i j : nat) (dt : Z).

Definition step (s : State) (c : Choice) : option State :=
  if finished s then None
  else match c with
  | Run i dt r =>
      if dt <? 0 then None
      else
        let now := clock s + dt in
        match pool s !! i with
        | None => None
        | Some p =>
            match fire now (chans s) p r with
            | None => None
            | Some (a, p') =>
                if is_comm a then None
                else Some {|
                  clock := now;
                  chans := match a with AMake _ => S (chans s) | _ => chans s end;
                  pool := <[i := p']> (pool s)
                            ++ match a with AGo g => [g] | _ => [] end;
                  stdout := stdout s
                            ++ match a with APrint x => [x] | _ => [] end;
                  log := log s ++ [(now, i, a)];
                  status := match a with AExit code => Some code | _ => None end
                |}
            end
        end
  | Sync i j dt =>
      if (dt <? 0) || (i =? j)%nat then None
      else
        let now := clock s + dt in
        match pool s !! i, pool s !! j with
        | Some (ChanSend ch v k), Some (ChanRecv ch' k') =>
            if (ch =? ch')%nat then Some {|
              clock := now;
              chans := chans s;
              pool := <[j := k' v]> (<[i := k]> (pool s));
              stdout := stdout s;
              log := log s ++ [(now, i, ASend ch v); (now, j, ARecv ch v)];
              status := None
            |}
            else None
        | _, _ => None
        end
  end.

(** Run a whole schedule. *)
Fixpoint exec (s : State) (cs : list Choice) : option State :=
  match cs with
  | [] => Some s
  | c :: cs' =>
      match step s c with
      | None => None
      | Some s' => exec s' cs'
      end
  end.

(** A process starts with [main] alone, at clock reading [0]. *)
Definition boot (p : Prog) : State :=
  {| clock := 0; chans := 0; pool := [p]; stdout := []; log := []; status := None |}.

(** The run of goroutine [i] inside a log. *)
Definition proj (i : nat) (l : list Entry) : list (Time * Action) :=
  omap (fun e : Entry =>
          if decide (snd (fst e) = i) then Some (fst (fst e), snd e) else None) l.

(** The goroutines started, in the order of their [go] statements. *)
Definition spawned (l : list Entry) : list Prog :=
  omap (fun e : Entry => match snd e with AGo g => Some g | _ => None end) l.

(** The hand-overs on the channel in the order they happened: who sent,
    and what. *)
Definition comms (l : list Entry) : list (nat * string) :=
  omap (fun e : Entry =>
          match snd e with ASend _ v => Some (snd (fst e), v) | _ => None end) l.

(** The deliveries in the order they happened: who received, and what. *)
Definition deliveries (l : list Entry) : list (nat * string) :=
  omap (fun e : Entry =>
          match snd e with ARecv _ v => Some (snd (fst e), v) | _ => None end) l.

(** Everything written to standard output, in order. *)
Definition prints (l : list Entry) : list string :=
  omap (fun e : Entry => match snd e with APrint x => Some x | _ => None end) l.

Definition stamps (l : list Entry) : list Time := map (fun e : Entry => fst (fst e)) l.

(** The step function as a relation, one rule per kind of step. *)
Inductive transition : State -> Choice -> State -> Prop :=
| transition_run s i dt r p a p' :
    finished s = false ->
    0 <= dt ->
    pool s !! i = Some p ->
    fire (clock s + dt) (chans s) p r = Some (a, p') ->
    is_comm a = false ->
    transition s (Run i dt r) {|
      clock := clock s + dt;
      chans := match a with AMake _ => S (chans s) | _ => chans s end;
      pool := <[i := p']> (pool s) ++ match a with AGo g => [g] | _ => [] end;
      stdout := stdout s ++ match a with APrint x => [x] | _ => [] end;
      log := log s ++ [(clock s + dt, i, a)];
      status := match a with AExit code => Some code | _ => None end
    |}
| transition_sync s i j dt ch v k k' :
    finished s = false ->
    0 <= dt ->
    i <> j ->
    pool s !! i = Some (ChanSend ch v k) ->
    pool s !! j = Some (ChanRecv ch k') ->
    transition s (Sync i j dt) {|
      clock := clock s + dt;
      chans := chans s;
      pool := <[j := k' v]> (<[i := k]> (pool s));
      stdout := stdout s;
      log := log s ++ [(clock s + dt, i, ASend ch v); (clock s + dt, j, ARecv ch v)];
      status := None
    |}.

(** What a [go] statement adds to the pool. *)
Definition started (a : Action) : list Prog :=
  match a with AGo g => [g] | _ => [] end.

(** A pool and a log fit together: the log names only goroutines of the
    pool, the pool is [main] and the goroutines started, and each goroutine
    is where its own run in the log leads from the program it was started
    with. *)
Definition traced (p0 : Prog) (ps : list Prog) (l : list Entry) : Prop :=
  Forall (fun e : Entry => (snd (fst e) < length ps)%nat) l /\
  length ps = S (length (spawned l)) /\
  forall i p,
    ps !! i = Some p ->
    exists o, (p0 :: spawned l) !! i = Some o /\ walk o (proj i l) p.

(** What holds of every state of every process started from [p0]: pool and
    log fit together, the output is what was printed, every value received
    is the value sent, and time only moves forward. *)
Record consistent (p0 : Prog) (s : State) : Prop := mkConsistent {
  cons_traced : traced p0 (pool s) (log s);
  cons_out : stdout s = prints (log s);
  cons_comm : map snd (comms (log s)) = map snd (deliveries (log s));
  cons_time : StronglySorted Z.le (stamps (log s))
              /\ Forall (fun t => 0 <= t <= clock s) (stamps (log s))
              /\ 0 <= clock s
}.

(** The states of a process whose [main] opens one channel, starts
    senders and collects from them: nobody has called [os.Exit], only
    [main] does anything but sender actions, and the values still to be
    sent are those [main] still expects. *)
Definition balanced (s : State) : Prop :=
  status s = None /\
  Forall (fun e : Entry => snd (fst e) <> 0%nat -> sender_action (snd e) = true) (log s) /\
  ((exists p, pool s = [p] /\ opener p) \/
   (exists c ws m rest,
       pool s = m :: rest /\ collector c (sum_list ws) m /\ Forall2 (sender c) ws rest)).

(** The actions still to come fit in what is left of the budget [b]. *)
Definition within (b : nat) (s : State) : Prop :=
  exists cs, Forall2 cost cs (pool s) /\ (length (log s) + sum_list cs <= b)%nat.

End Sched.

(** ** main.go *)

Module Fetchall.
Import GoFmt Lang Sched.

(** [func fetch(url string, ch chan<- string)] *)
Definition fetch (url : string) (ch : chan) : Prog :=
  TimeNow (fun start =>
  HttpGet url (fun got =>
  match got with
  | inr err =>
      ChanSend ch (Sprint [VError err]) Return
  | inl resp =>
      IoCopyDiscard (Body resp) (fun '(nbytes, err) =>
      BodyClose (Body resp) (
      match err with
      | Some err =>
          ChanSend ch (Sprint [VString "while reading %s: %v"; VString url; VError err])
            Return
      | None =>
          TimeSince start (fun d =>
          let secs := Seconds d in
          ChanSend ch (Sprintf "%.2fs %7d %s" [VFloat secs; VInt nbytes; VString url])
            Return)
      end))
  end)).

(** [for _, url := range os.Args[1:] { go fetch(url, ch) }] *)
Fixpoint spawn_all (urls : list string) (ch : chan) (k : Prog) : Prog :=
  match urls with
  | [] => k
  | url :: rest => GoStmt (fetch url ch) (spawn_all rest ch k)
  end.

(** [for range os.Args[1:] { fmt.Println(<-ch) }] *)
Fixpoint collect_all (urls : list string) (ch : chan) (k : Prog) : Prog :=
  match urls with
  | [] => k
  | _ :: rest =>
      ChanRecv ch (fun v => Stdout (Sprintln [VString v]) (collect_all rest ch k))
  end.

(** [func main()], where [args] is [os.Args[1:]]. *)
Definition main (args : list string) : Prog :=
  TimeNow (fun start =>
  MakeChan (fun ch =>
  spawn_all args ch (
  collect_all args ch (
  TimeSince start (fun d =>
  Stdout (Sprintf ("%.2fs elapsed" ++ nl) [VFloat (Seconds d)]) Return))))).

(** The three runs of [fetch] from start to return: the transport call
    fails; the body read fails; both succeed.  The [t]s are the clock
    readings at the steps. *)
Inductive fetch_run (url : string) (ch : chan) : list (Time * Action) -> Prop :=
| run_get_failed t0 t1 t2 err :
    fetch_run url ch
      [(t0, ANow t0); (t1, AGet url (inr err));
       (t2, ASend ch (Sprint [VError err]))]
| run_read_failed t0 t1 t2 t3 t4 resp n err :
    fetch_run url ch
      [(t0, ANow t0); (t1, AGet url (inl resp));
       (t2, ACopy (Body resp) n (Some err)); (t3, AClose (Body resp));
       (t4, ASend ch (Sprint [VString "while reading %s: %v"; VString url; VError err]))]
| run_fetched t0 t1 t2 t3 t4 t5 resp n :
    fetch_run url ch
      [(t0, ANow t0); (t1, AGet url (inl resp));
       (t2, ACopy (Body resp) n None); (t3, AClose (Body resp));
       (t4, ASince (Sub t4 t0));
       (t5, ASend ch (Sprintf "%.2fs %7d %s"
                        [VFloat (Seconds (Sub t4 t0)); VInt n; VString url]))].

(** A sample run: two targets; the second is refused after five
    milliseconds and is collected first, the first answers 6852 bytes
    after some hundred and forty milliseconds. *)
Definition sample_args : list string :=
  ["http://a.example"%string; "http://b.example"%string].

Definition sample_schedule : list Choice :=
  [ Run 0 0 RNone; Run 0 0 RNone; Run 0 0 RNone; Run 0 0 RNone;
    Run 2 1000 RNone;
    Run 2 5000000 (RGet (inr (mkError "connection refused")));
    Run 1 0 RNone;
    Sync 2 0 0; Run 0 0 RNone;
    Run 1 140000000 (RGet (inl (mkResponse 7%nat)));
    Run 1 1000000 (RCopy 6852 None);
    Run 1 0 RNone; Run 1 0 RNone;
    Sync 1 0 0; Run 0 0 RNone;
    Run 0 0 RNone; Run 0 0 RNone ].

(** The schedule in which the [n] fetch goroutines complete in the order
    [order]: [main] reads the clock, makes the channel and starts the
    goroutines; then each goroutine in turn reads the clock, has its
    transport call fail with [e] and hands its result to [main], which
    prints it; at last [main] reads the clock and prints the summary. *)
Definition completion_schedule (n : nat) (e : error) (order : list nat) : list Choice :=
  replicate (2 + n) (Run 0 0 RNone)
  ++ flat_map (fun j => [Run j 0 RNone; Run j 0 (RGet (inr e)); Sync j 0 0;
                         Run 0 0 RNone]) order
  ++ [Run 0 0 RNone; Run 0 0 RNone].

(** The claim that a failure result tells how long the failed attempt
    took: the elapsed time could then be read off the value sent. *)
Definition failure_carries_elapsed : Prop :=
  exists elapsed_of : string -> Duration,
  forall url ch t0 t1 t2 e v,
    walk (fetch url ch) [(t0, ANow t0); (t1, AGet url (inr e)); (t2, ASend ch v)] Return ->
    elapsed_of v = Sub t1 t0.

(** The claim that [fetch] turns away the targets that are [malformed]
    before it calls the transport. *)
Definition rejects_before_transport (malformed : string -> Prop) : Prop :=
  forall url ch l q t r,
    malformed url -> walk (fetch url ch) l q -> ~ In (t, AGet url r) l.

(** One round of the collecting loop: when the value arrived, the value,
    and when it was printed. *)
Record Receipt : Type := mkReceipt { at_recv : Time; value : string; at_print : Time }.

Definition spawn_run (ch : chan) (ts : list Time) (urls : list string)
  : list (Time * Action) :=
  zip_with (fun t url => (t, AGo (fetch url ch))) ts urls.

Definition collect_run (ch : chan) (rs : list Receipt) : list (Time * Action) :=
  flat_map (fun r => [(at_recv r, ARecv ch (value r));
                      (at_print r, APrint (Sprintln [VString (value r)]))]) rs.

(** The summary line for a total elapsed time [d]. *)
Definition summary (d : Duration) : string :=
  Sprintf ("%.2fs elapsed" ++ nl) [VFloat (Seconds d)].

(** The run of [main] from start to return. *)
Definition main_run (args : list string) (ch : chan) (t0 t1 : Time)
    (ts : list Time) (rs : list Receipt) (t2 t3 : Time) : list (Time * Action) :=
  (t0, ANow t0) :: (t1, AMake ch) ::
  spawn_run ch ts args ++ collect_run ch rs
  ++ [(t2, ASince (Sub t2 t0)); (t3, APrint (summary (Sub t2 t0)))].

(** The process once [main] has returned: nobody called [os.Exit]; only
    [main] did anything but sender actions; [main] went through its
    complete run; there is one goroutine per argument, and each went
    through a complete run of [fetch] for its argument; what was handed
    over, what [main] received and what was printed are the same values in
    the same order. *)
Record settled (args : list string) (s : State) (ch : chan) (t0 t1 : Time)
    (ts : list Time) (rs : list Receipt) (t2 t3 : Time) : Prop := mkSettled {
  set_status : status s = None;
  set_only :
    Forall (fun e : Entry => snd (fst e) <> 0%nat -> sender_action (snd e) = true) (log s);
  set_ts : length ts = length args;
  set_rs : length rs = length args;
  set_main : proj 0 (log s) = main_run args ch t0 t1 ts rs t2 t3;
  set_pool : length (pool s) = S (length args);
  set_ids : Forall (fun e : Entry => (snd (fst e) < S (length args))%nat) (log s);
  set_fetch :
    forall j url, args !! j = Some url -> fetch_run url ch (proj (S j) (log s));
  set_comms : map snd (comms (log s)) = map value rs;
  set_deliveries : deliveries (log s) = map (fun r => (0%nat, value r)) rs;
  set_stdout :
    stdout s = map (fun r => Sprintln [VString (value r)]) rs ++ [summary (Sub t2 t0)];
  set_sorted : StronglySorted Z.le (stamps (log s))
}.

End Fetchall.


(** ** The sequential fetch (Fetch prints the content found at a URL) *)

Module Fetch.
Import GoFmt Lang.

(** The network as the program meets it: what the [i]-th call of
    [http.Get] answers for a url, and what reading a body to its end
    gives, the bytes read and possibly an error. *)
Record World : Type := mkWorld {
  http_get : nat -> string -> Response + error;
  read_all : ReadCloser -> string * option error
}.

(** The calls the program makes, in order. *)
Inductive Call : Type :=
| CGet (url : string)
| CReadAll (body : ReadCloser)
| CClose (body : ReadCloser)
| CExit (code : Z).

(** What the process has done so far: standard output, standard error,
    the calls made, and the exit status once [os.Exit] was called. *)
Record Proc : Type := mkProc {
  out : list string;
  err : list string;
  calls : list Call;
  exited : option Z
}.

Definition start : Proc := {| out := []; err := []; calls := []; exited := None |}.

Definition call (cs : list Call) (p : Proc) : Proc :=
  {| out := out p; err := err p; calls := calls p ++ cs; exited := exited p |}.

(** [fmt.Printf] *)
Definition Printf (format : string) (args : list Value) (p : Proc) : Proc :=
  {| out := out p ++ [Sprintf format args]; err := err p; calls := calls p;
     exited := exited p |}.

(** [fmt.Fprintf(os.Stderr, ...)] *)
Definition Fprintf_stderr (format : string) (args : list Value) (p : Proc) : Proc :=
  {| out := out p; err := err p ++ [Sprintf format args]; calls := calls p;
     exited := exited p |}.

(** [os.Exit] *)
Definition Exit (code : Z) (p : Proc) : Proc :=
  {| out := out p; err := err p; calls := calls p ++ [CExit code];
     exited := Some code |}.

(** The loop of [main] from the [i]-th call of [http.Get] on:
    [for _, url := range os.Args[1:] { ... }]. *)
Fixpoint fetch_each (w : World) (i : nat) (urls : list string) (p : Proc) : Proc :=
  match urls with
  | [] => p
  | url :: rest =>
      let p := call [CGet url] p in
      match http_get w i url with
      | inr err =>
          Exit 1 (Fprintf_stderr ("fetch: %v" ++ nl) [VError err] p)
      | inl resp =>
          let '(b, err) := read_all w (Body resp) in
          let p := call [CReadAll (Body resp); CClose (Body resp)] p in
          match err with
          | Some err =>
              Exit 1 (Fprintf_stderr ("fetch: reading %s: %v" ++ nl)
                        [VString url; VError err] p)
          | None =>
              fetch_each w (S i) rest (Printf "%s" [VString b] p)
          end
      end
  end.

(** [func main()], where [args] is [os.Args[1:]]. *)
Definition main (w : World) (args : list string) : Proc := fetch_each w 0 args start.

(** What a target gives when everything goes well: the bytes of its
    body. *)
Definition content (w : World) (i : nat) (url : string) : option string :=
  match http_get w i url with
  | inr _ => None
  | inl resp =>
      match read_all w (Body resp) with
      | (b, None) => Some b
      | (_, Some _) => None
      end
  end.

(** The calls for a target that goes well. *)
Definition calls_for (w : World) (i : nat) (url : string) : list Call :=
  match http_get w i url with
  | inr _ => [CGet url]
  | inl resp => [CGet url; CReadAll (Body resp); CClose (Body resp)]
  end.

(** The bodies printed and the calls made for targets that all go well,
    the first of them being the [i]-th call. *)
Definition bodies (w : World) (i : nat) (urls : list string) : list string :=
  imap (fun k url => default EmptyString (content w (i + k) url)) urls.

Definition good_calls (w : World) (i : nat) (urls : list string) : list Call :=
  concat (imap (fun k url => calls_for w (i + k) url) urls).

(** The bodies read to their end and the bodies closed, in order. *)
Definition read_bodies (cs : list Call) : list ReadCloser :=
  omap (fun c => match c with CReadAll b => Some b | _ => None end) cs.

Definition closed_bodies (cs : list Call) : list ReadCloser :=
  omap (fun c => match c with CClose b => Some b | _ => None end) cs.

(** The targets handed to [http.Get], in order. *)
Definition requested (cs : list Call) : list string :=
  omap (fun c => match c with CGet url => Some url | _ => None end) cs.

(** The line written to standard error for a target that fails. *)
Definition complaint (w : World) (i : nat) (url : string) : string :=
  match http_get w i url with
  | inr e => ("fetch: " ++ Error e ++ nl)%string
  | inl resp =>
      match snd (read_all w (Body resp)) with
      | Some e => ("fetch: reading " ++ url ++ ": " ++ Error e ++ nl)%string
      | None => EmptyString
      end
  end.

(** A sample network: [good] answers with a body of five bytes, anything
    else is refused. *)
Definition sample_world : World :=
  {| http_get := fun _ url =>
       if String.eqb url "good" then inl (mkResponse 1%nat)
       else inr (mkError "connection refused");
     read_all := fun _ => ("hello"%string, None) |}.

End Fetch.

(** ** Dup (prints the lines that appear more than once) *)

Module Dup.
Import GoFmt.

(** Go's [int], taken as 64 bits wide: what [n] is after wrap-around. *)
Definition wrap_int (n : Z) : Z := (n + 2 ^ 63) mod 2 ^ 64 - 2 ^ 63.

Definition tab : string := String (ascii_of_nat 9) EmptyString.

(** [counts[line]++]: a key that is missing reads as zero. *)
Definition bump (counts : gmap string Z) (line : string) : gmap string Z :=
  <[line := wrap_int (default 0 (counts !! line) + 1)]> counts.

(** [for input.Scan() { counts[input.Text()]++ }], where [lines] are the
    lines the scanner delivers. *)
Definition count_lines (lines : list string) : gmap string Z := foldl bump ∅ lines.

(** The body of the second loop for one entry of the map. *)
Definition report_entry (e : string * Z) : list string :=
  if 1 <? snd e
  then [Sprintf ("%d" ++ tab ++ "%s" ++ nl) [VInt (snd e); VString (fst e)]]
  else [].

(** [for line, n := range counts { ... }] for the entries in the order
    the loop visits them. *)
Definition report (entries : list (string * Z)) : list string :=
  flat_map report_entry entries.

(** A [range] over a map visits every entry once, in an order that Go
    leaves open. *)
Definition visits (counts : gmap string Z) (entries : list (string * Z)) : Prop :=
  entries ≡ₚ map_to_list counts.

(** What [main] may print for the input [lines]. *)
Definition prints (lines : list string) (output : list string) : Prop :=
  exists entries, visits (count_lines lines) entries /\ output = report entries.

(** [func main()] with one order of visit. *)
Definition main (lines : list string) : list string :=
  report (map_to_list (count_lines lines)).




End Dup.

(** ** What a log tells about bodies and hand-overs *)

Module Ledger.
Import GoFmt Lang Sched.

(** The bodies a run obtained, read and closed, in order. *)
Definition opened_in (l : list (Time * Action)) : list ReadCloser :=
  omap (fun e => match snd e with AGet _ (inl resp) => Some (Body resp) | _ => None end) l.

Definition read_in (l : list (Time * Action)) : list ReadCloser :=
  omap (fun e => match snd e with ACopy body _ _ => Some body | _ => None end) l.

Definition closed_in (l : list (Time * Action)) : list ReadCloser :=
  omap (fun e => match snd e with AClose body => Some body | _ => None end) l.

(** The values handed to the channel and the values taken from it, each
    with the clock reading of the step. *)
Definition handed (l : list Entry) : list (Time * chan * string) :=
  omap (fun e : Entry =>
          match snd e with ASend c v => Some (fst (fst e), c, v) | _ => None end) l.

Definition taken (l : list Entry) : list (Time * chan * string) :=
  omap (fun e : Entry =>
          match snd e with ARecv c v => Some (fst (fst e), c, v) | _ => None end) l.

(** The first steps of the sample run, up to the first hand-over. *)
Definition sample_beginning : list Choice := take 8 Fetchall.sample_schedule.

End Ledger.

(** * Facts *)

(** ** Printing *)

Module GoFmtFacts.
Import GoFmt.

Lemma append_empty (x : string) : (x ++ "")%string = x.
Proof. induction x as [|c x IH]; simpl; [reflexivity | rewrite IH; reflexivity]. Qed.

Lemma pad_left_0 (x : string) : pad_left 0 x = x.
Proof. reflexivity. Qed.

Lemma append_assoc (x y z : string) : ((x ++ y) ++ z)%string = (x ++ y ++ z)%string.
Proof. induction x as [|c x IH]; simpl; [reflexivity | rewrite IH; reflexivity]. Qed.

(** A padded field is the text itself behind the spaces that fill the
    width; it is as wide as the width, or as the text when that is wider. *)
Lemma pad_left_length w (x : string) :
  String.length (pad_left w x) = Nat.max w (String.length x).
Proof.
  unfold pad_left.
  assert (Happ : forall a b : string,
             String.length (a ++ b) = (String.length a + String.length b)%nat).
  { induction a as [|c a IH]; intros b; simpl; [reflexivity | rewrite IH; reflexivity]. }
  assert (Hsp : forall n, String.length (spaces n) = n).
  { induction n as [|n IH]; simpl; [reflexivity | rewrite IH; reflexivity]. }
  rewrite Happ, Hsp. lia.
Qed.

(** [Sprint(err)] is the text of the error. *)
Lemma Sprint_error e : Sprint [VError e] = Error e.
Proof. unfold Sprint. simpl. apply append_empty. Qed.

(** [Sprint] with a string, a string and an error: no verb is
    interpreted and no space is added, the three texts follow each other. *)
Lemma Sprint_string_string_error (x y : string) e :
  Sprint [VString x; VString y; VError e] = (x ++ y ++ Error e)%string.
Proof. unfold Sprint. simpl. rewrite append_empty. reflexivity. Qed.

(** [Println] of one string is the string and a newline. *)
Lemma Sprintln_string (v : string) : Sprintln [VString v] = (v ++ nl)%string.
Proof. reflexivity. Qed.

(** The line [fetch] builds on success. *)
Lemma Sprintf_fetched x n (url : string) :
  Sprintf "%.2fs %7d %s" [VFloat x; VInt n; VString url]
  = (fmt_fixed 2 x ++ "s " ++ pad_left 7 (itoa n) ++ " " ++ url)%string.
Proof.
  unfold Sprintf.
  lazy -[fmt_fixed itoa pad_left String.append].
  rewrite !pad_left_0, append_empty. reflexivity.
Qed.

(** The summary [main] prints. *)
Lemma Sprintf_elapsed x :
  Sprintf ("%.2fs elapsed" ++ nl) [VFloat x] = (fmt_fixed 2 x ++ "s elapsed" ++ nl)%string.
Proof.
  unfold Sprintf.
  let f := eval lazy in ("%.2fs elapsed" ++ nl)%string in
  change ("%.2fs elapsed" ++ nl)%string with f.
  lazy -[fmt_fixed itoa pad_left String.append nl].
  rewrite !pad_left_0. reflexivity.
Qed.

(** What [Sprintf] would have made of the format that [fetch] hands to
    [Sprint] on a failed read. *)
Lemma Sprintf_while_reading (url : string) e :
  Sprintf "while reading %s: %v" [VString url; VError e]
  = ("while reading " ++ url ++ ": " ++ Error e)%string.
Proof.
  unfold Sprintf.
  lazy -[fmt_fixed itoa pad_left String.append].
  rewrite !pad_left_0, append_empty. reflexivity.
Qed.

Lemma digit_is_digit v : 0 <= v < 10 -> is_digit (digit v) = true.
Proof.
  intros Hv.
  assert (Hcases : v = 0 \/ v = 1 \/ v = 2 \/ v = 3 \/ v = 4 \/ v = 5 \/ v = 6
                   \/ v = 7 \/ v = 8 \/ v = 9) by lia.
  repeat (destruct Hcases as [-> | Hcases]; [reflexivity |]). subst. reflexivity.
Qed.

(** [%.2f] ends in a point and exactly two decimal digits. *)
Lemma fmt_fixed_two_decimals x :
  exists whole d1 d2,
    fmt_fixed 2 x = (whole ++ "." ++ String d1 (String d2 ""))%string
    /\ is_digit d1 = true /\ is_digit d2 = true.
Proof.
  assert (Habs : forall m e, exists whole d1 d2,
             fixed_abs 2 m e = (whole ++ "." ++ String d1 (String d2 ""))%string
             /\ is_digit d1 = true /\ is_digit d2 = true).
  { intros m e. unfold fixed_abs.
    set (units := if 0 <=? e then _ else _).
    exists (itoa (units / 10 ^ Z.of_nat 2)),
           (digit ((units mod 10 ^ Z.of_nat 2) / 10 mod 10)),
           (digit ((units mod 10 ^ Z.of_nat 2) mod 10)).
    split; [reflexivity |].
    split; apply digit_is_digit; apply Z.mod_pos_bound; lia. }
  unfold fmt_fixed. destruct (f_mant x <? 0).
  - destruct (Habs (- f_mant x) (f_exp x)) as (whole & d1 & d2 & Heq & H1 & H2).
    exists ("-" ++ whole)%string, d1, d2. rewrite Heq. auto.
  - apply Habs.
Qed.

(** Rounding a quotient moves it by less than one. *)
Lemma rne_div_bound a b :
  0 <= a -> 0 < b -> 0 <= rne_div a b /\ rne_div a b * b <= a + b.
Proof.
  intros Ha Hb. unfold rne_div.
  pose proof (Z.div_mod a b ltac:(lia)) as Hdm.
  pose proof (Z.mod_pos_bound a b Hb) as Hr.
  pose proof (Z.div_pos a b Ha Hb) as Hq.
  destruct (2 * (a mod b) <? b); [nia |].
  destruct (b <? 2 * (a mod b)); [nia |].
  destruct (Z.even (a / b)); nia.
Qed.

Lemma rne_div_zero a b : 0 <= a -> 2 * a < b -> rne_div a b = 0.
Proof.
  intros Ha Hb. unfold rne_div.
  rewrite Z.div_small, Z.mod_small by lia.
  destruct (2 * a <? b) eqn:E; [reflexivity | lia].
Qed.

(** A quotient below [2 ^ 52]: the exponent is negative, and rounding to
    53 bits adds at most one unit in the last place. *)
Lemma round53_small num den :
  0 < num -> Z.log2 num - Z.log2 den - 52 < 0 ->
  exists e,
    e < 0 /\ Z.log2 den - Z.log2 num + 52 <= - e /\
    round53 num den = mkFloat (rne_div (num * 2 ^ (- e)) den) e.
Proof.
  intros Hnum He0. unfold round53, scale_frac.
  destruct (num =? 0) eqn:E; [lia |].
  destruct (0 <=? Z.log2 num - Z.log2 den - 52) eqn:E0; [lia |].
  destruct (num * 2 ^ (- (Z.log2 num - Z.log2 den - 52)) / den <? 2 ^ 52).
  - exists (Z.log2 num - Z.log2 den - 52 - 1).
    destruct (0 <=? Z.log2 num - Z.log2 den - 52 - 1) eqn:E1; [lia |].
    repeat split; lia.
  - exists (Z.log2 num - Z.log2 den - 52).
    rewrite E0. repeat split; lia.
Qed.

Lemma round53_bound num den :
  0 < num -> 0 < den -> Z.log2 num - Z.log2 den - 52 < 0 ->
  f_exp (round53 num den) < 0 /\
  Z.log2 den - Z.log2 num + 52 <= - f_exp (round53 num den) /\
  0 <= f_mant (round53 num den) /\
  f_mant (round53 num den) * den
  <= num * 2 ^ (- f_exp (round53 num den)) + den.
Proof.
  intros Hnum Hden He0.
  destruct (round53_small num den Hnum He0) as (e & He & Hsize & ->). simpl.
  assert (0 < 2 ^ (- e)) by (apply Z.pow_pos_nonneg; lia).
  destruct (rne_div_bound (num * 2 ^ (- e)) den) as [H1 H2]; [nia | lia |].
  repeat split; lia.
Qed.

(** A duration of less than five milliseconds prints as [0.00]. *)
Lemma Seconds_small d : 0 <= d < 5000000 -> fmt_fixed 2 (Seconds d) = "0.00"%string.
Proof.
  intros Hd.
  destruct (Z.eq_dec d 0) as [-> | Hne]; [vm_compute; reflexivity |].
  unfold Seconds. destruct (d <? 0) eqn:E; [lia |].
  unfold Seconds_abs, Second.
  rewrite Z.div_small, Z.mod_small by lia.
  unfold fdiv, float_of_int. simpl f_exp. simpl f_mant.
  change (0 - 0) with 0. change (0 <=? 0) with true. cbv iota.
  rewrite Z.pow_0_r, Z.mul_1_r.
  assert (Hlog : Z.log2 d < 23).
  { apply Z.log2_lt_pow2; [lia |]. change (2 ^ 23) with 8388608. lia. }
  destruct (round53_bound d 1000000000) as (He & Hsize & Hm & Hbound);
    [lia | lia | change (Z.log2 1000000000) with 29; lia |].
  change (Z.log2 1000000000) with 29 in Hsize.
  destruct (round53 d 1000000000) as [m e]. simpl in He, Hsize, Hm, Hbound.
  assert (HX : 2 ^ 59 <= 2 ^ (- e)) by (apply Z.pow_le_mono_r; lia).
  change (2 ^ 59) with 576460752303423488 in HX.
  unfold fadd. simpl f_exp. simpl f_mant.
  rewrite Z.min_r by lia.
  rewrite Z.sub_diag, Z.pow_0_r, Z.mul_1_r. simpl (0 * _). rewrite Z.add_0_l.
  destruct (Z.eq_dec m 0) as [-> | Hm0]; [reflexivity |].
  assert (Hmlt : m < 2 ^ (- e)) by nia.
  assert (Hlogm : Z.log2 m < - e) by (apply Z.log2_lt_pow2; lia).
  destruct (round53_bound m (2 ^ (- e))) as (HE & Hsize2 & HM & Hbound2);
    [lia | lia | rewrite Z.log2_pow2 by lia; lia |].
  rewrite Z.log2_pow2 in Hsize2 by lia.
  destruct (round53 m (2 ^ (- e))) as [M E']. simpl in HE, Hsize2, HM, Hbound2.
  assert (HY : 2 ^ 53 <= 2 ^ (- E')) by (apply Z.pow_le_mono_r; lia).
  change (2 ^ 53) with 9007199254740992 in HY.
  unfold fmt_fixed. simpl f_mant. simpl f_exp.
  destruct (M <? 0) eqn:EM; [lia |].
  unfold fixed_abs. destruct (0 <=? E') eqn:EE; [lia |].
  change (10 ^ Z.of_nat 2) with 100.
  rewrite rne_div_zero; [reflexivity | lia |].
  set (X := 2 ^ (- e)) in *. set (Y := 2 ^ (- E')) in *.
  nia.
Qed.

End GoFmtFacts.

(** ** One goroutine *)

Module LangFacts.
Import GoFmt Lang.

Lemma walk_app p l q l' r : walk p l q -> walk q l' r -> walk p (l ++ l') r.
Proof.
  induction 1 as [|p now fresh rp a p' l q Hf Hw IH]; intros Hq; simpl.
  - exact Hq.
  - eapply walk_step; [exact Hf | exact (IH Hq)].
Qed.

Lemma walk_snoc p l q now fresh r a q' :
  walk p l q -> fire now fresh q r = Some (a, q') -> walk p (l ++ [(now, a)]) q'.
Proof.
  intros Hw Hf. eapply walk_app; [exact Hw |].
  eapply walk_step; [exact Hf | apply walk_done].
Qed.

(** A step of a sender is a sender action; a send uses up one of the
    values it has to send, any other step none. *)
Lemma sender_fire c n p now fresh r a p' :
  sender c n p ->
  fire now fresh p r = Some (a, p') ->
  sender_action a = true /\
  match a with
  | ASend c' _ => c' = c /\ exists n', n = S n' /\ sender c n' p'
  | _ => sender c n p'
  end.
Proof.
  intros Hs Hf.
  destruct Hs; simpl in Hf.
  - discriminate.
  - inversion Hf; subst; auto.
  - inversion Hf; subst; auto.
  - destruct r; try discriminate. inversion Hf; subst; auto.
  - destruct r; try discriminate.
    destruct ((0 <=? n0) && (n0 <? 2 ^ 63)); try discriminate.
    inversion Hf; subst; auto.
  - inversion Hf; subst; auto.
  - inversion Hf; subst. split; [reflexivity |]. split; [reflexivity |]. eauto.
Qed.

Lemma sent_values_cons t a l :
  sent_values ((t, a) :: l) =
  match a with ASend c v => (c, v) :: sent_values l | _ => sent_values l end.
Proof. destruct a; reflexivity. Qed.

(** Along a run a sender stays a sender, and the values sent are counted
    off what it had to send. *)
Lemma sender_walk c n p l q :
  sender c n p -> walk p l q ->
  exists m, sender c m q /\ n = (m + length (sent_values l))%nat
            /\ Forall (fun e => sender_action (snd e) = true) l.
Proof.
  intros Hs Hw. revert n Hs.
  induction Hw as [|p now fresh r a p' l q Hf Hw IH]; intros n Hs.
  - exists n. simpl. split; [exact Hs |]. split; [lia | constructor].
  - destruct (sender_fire _ _ _ _ _ _ _ _ Hs Hf) as [Ha Hn].
    destruct a; simpl in Ha; try discriminate;
      try (destruct (IH _ Hn) as (m & Hm & Hcount & Hall);
           exists m; split; [exact Hm |]; split;
           [rewrite sent_values_cons; exact Hcount
           | constructor; [reflexivity | exact Hall]]).
    destruct Hn as (-> & n' & -> & Hn').
    destruct (IH _ Hn') as (m & Hm & Hcount & Hall).
    exists m. split; [exact Hm |]. split.
    + rewrite sent_values_cons. simpl. lia.
    + constructor; [reflexivity | exact Hall].
Qed.

Lemma cost_mono n p : cost n p -> forall m, (n <= m)%nat -> cost m p.
Proof.
  induction 1 as [n|n k _ IH|n st k _ IH|n k _ IH|n u k _ IH|n b k _ IH|n b k _ IH
                 |n ch v k _ IH|n ch k _ IH|n m0 g k _ IHg _ IHk|n x k _ IH|n code];
    intros m Hle.
  - constructor.
  - destruct m as [|m]; [lia |]. constructor. intros t. apply IH. lia.
  - destruct m as [|m]; [lia |]. constructor. intros t. apply IH. lia.
  - destruct m as [|m]; [lia |]. constructor. intros t. apply IH. lia.
  - destruct m as [|m]; [lia |]. constructor. intros t. apply IH. lia.
  - destruct m as [|m]; [lia |]. constructor. intros t. apply IH. lia.
  - destruct m as [|m]; [lia |]. constructor. apply IH. lia.
  - destruct m as [|m]; [lia |]. constructor. apply IH. lia.
  - destruct m as [|m]; [lia |]. constructor. intros t. apply IH. lia.
  - destruct m as [|m]; [lia |].
    replace m with (n + (m - n))%nat by lia.
    constructor; [apply IHg; lia | apply IHk; lia].
  - destruct m as [|m]; [lia |]. constructor. apply IH. lia.
  - destruct m as [|m]; [lia |]. constructor.
Qed.

(** A step pays one unit; what is left covers the continuation and, for a
    [go] statement, the goroutine started. *)
Lemma cost_fire n p now fresh r a p' :
  cost n p ->
  fire now fresh p r = Some (a, p') ->
  match a with
  | AGo g => exists x y, cost x g /\ cost y p' /\ (S (x + y) <= n)%nat
  | _ => exists y, cost y p' /\ (S y <= n)%nat
  end.
Proof.
  intros Hc Hf.
  destruct Hc; simpl in Hf; try discriminate.
  - inversion Hf; subst. eauto.
  - inversion Hf; subst. eauto.
  - inversion Hf; subst. eauto.
  - destruct r; try discriminate. inversion Hf; subst. eauto.
  - destruct r; try discriminate.
    destruct ((0 <=? n0) && (n0 <? 2 ^ 63)); try discriminate.
    inversion Hf; subst. eauto.
  - inversion Hf; subst. eauto.
  - inversion Hf; subst. eauto.
  - destruct r; try discriminate. inversion Hf; subst. eauto.
  - inversion Hf; subst. eauto.
  - inversion Hf; subst. eauto.
  - inversion Hf; subst. exists n. split; [constructor | lia].
Qed.

(** A run is no longer than the cost of the program it starts from. *)
Lemma cost_walk p l q : walk p l q -> forall n, cost n p -> (length l <= n)%nat.
Proof.
  induction 1 as [|p now fresh r a p' l q Hf Hw IH]; intros n Hc; simpl; [lia |].
  pose proof (cost_fire _ _ _ _ _ _ _ Hc Hf) as Hnext.
  destruct a; try (destruct Hnext as (y & Hy & Hle); specialize (IH _ Hy); lia).
  destruct Hnext as (x & y & _ & Hy & Hle). specialize (IH _ Hy). lia.
Qed.

(** How many values a program sends does not depend on the channel it is
    judged against. *)
Lemma sender_count_unique c n p :
  sender c n p -> forall c' n', sender c' n' p -> n = n'.
Proof.
  induction 1 as [|n k _ IH|n st k _ IH|n u k _ IH|n b k _ IH|n b k _ IH|n v k _ IH];
    intros c' n' H'; inversion H'; subst.
  - reflexivity.
  - eapply (IH 0); eauto.
  - eapply (IH 0); eauto.
  - eapply (IH (inr (mkError EmptyString))); eauto.
  - eapply (IH (0, None)); eauto.
  - eapply IH; eauto.
  - f_equal. eapply IH; eauto.
Qed.

(** A goroutine that has not returned can always take its next step, given
    a suitable answer. *)
Lemma fire_total p now fresh :
  p <> Return -> exists r a p', fire now fresh p r = Some (a, p').
Proof.
  intros Hp. destruct p; try contradiction; simpl.
  - exists RNone. eauto.
  - exists RNone. eauto.
  - exists RNone. eauto.
  - exists (RGet (inr (mkError EmptyString))). eauto.
  - exists (RCopy 0 None). simpl. eauto.
  - exists RNone. eauto.
  - exists RNone. eauto.
  - exists (RMsg EmptyString). eauto.
  - exists RNone. eauto.
  - exists RNone. eauto.
  - exists RNone. eauto.
Qed.

End LangFacts.

(** ** The pool *)

Module SchedFacts.
Import GoFmt Lang Sched LangFacts.

Lemma step_transition s c s' : step s c = Some s' -> transition s c s'.
Proof.
  unfold step. intros H.
  destruct (finished s) eqn:Hfin; [discriminate |].
  destruct c as [i dt r | i j dt].
  - destruct (dt <? 0) eqn:Hdt; [discriminate |].
    destruct (pool s !! i) as [p|] eqn:Hp; [| discriminate].
    destruct (fire (clock s + dt) (chans s) p r) as [[a p']|] eqn:Hf; [| discriminate].
    destruct (is_comm a) eqn:Hc; [discriminate |].
    inversion H; subst. eapply transition_run; eauto. lia.
  - destruct ((dt <? 0) || (i =? j)%nat) eqn:Hg; [discriminate |].
    apply orb_false_iff in Hg as [Hdt Hij].
    apply Nat.eqb_neq in Hij.
    destruct (pool s !! i) as [pi|] eqn:Hi; [| discriminate].
    destruct pi; try discriminate.
    destruct (pool s !! j) as [pj|] eqn:Hj; [| discriminate].
    destruct pj; try discriminate.
    destruct (ch =? ch0)%nat eqn:Hch; [| discriminate].
    apply Nat.eqb_eq in Hch. subst ch0.
    inversion H; subst. eapply transition_sync; eauto. lia.
Qed.

Lemma transition_step s c s' : transition s c s' -> step s c = Some s'.
Proof.
  intros H. destruct H as [s i dt r p a p' Hfin Hdt Hp Hf Hc
                          | s i j dt ch v k k' Hfin Hdt Hij Hi Hj]; unfold step.
  - rewrite Hfin.
    destruct (dt <? 0) eqn:E; [lia |].
    rewrite Hp, Hf, Hc. reflexivity.
  - rewrite Hfin.
    destruct (dt <? 0) eqn:E; [lia |].
    destruct (i =? j)%nat eqn:E2; [apply Nat.eqb_eq in E2; contradiction |].
    simpl. rewrite Hi, Hj, Nat.eqb_refl. reflexivity.
Qed.

Lemma exec_app s cs cs' :
  exec s (cs ++ cs') = match exec s cs with Some s' => exec s' cs' | None => None end.
Proof.
  revert s. induction cs as [|c cs IH]; intros s; simpl.
  - reflexivity.
  - destruct (step s c); [apply IH | reflexivity].
Qed.

(** Whatever holds at the start and is kept by every step holds after
    every schedule. *)
Lemma exec_invariant (P : State -> Prop) :
  (forall s c s', P s -> transition s c s' -> P s') ->
  forall cs s s', P s -> exec s cs = Some s' -> P s'.
Proof.
  intros Hstep. induction cs as [|c cs IH]; intros s s' Hs He; simpl in He.
  - inversion He; subst. exact Hs.
  - destruct (step s c) as [s1|] eqn:E; [| discriminate].
    apply (IH s1 s'); [| exact He].
    eapply Hstep; [exact Hs |]. apply step_transition. exact E.
Qed.

Lemma proj_snoc i l t j a :
  proj i (l ++ [(t, j, a)]) = if decide (j = i) then proj i l ++ [(t, a)] else proj i l.
Proof.
  unfold proj. rewrite omap_app. simpl.
  destruct (decide (j = i)); simpl; [reflexivity | apply app_nil_r].
Qed.

Lemma spawned_snoc l t j a : spawned (l ++ [(t, j, a)]) = spawned l ++ started a.
Proof.
  unfold spawned. rewrite omap_app. destruct a; simpl; try apply app_nil_r; reflexivity.
Qed.

Lemma prints_snoc l t j a :
  prints (l ++ [(t, j, a)]) = prints l ++ match a with APrint x => [x] | _ => [] end.
Proof.
  unfold prints. rewrite omap_app. destruct a; simpl; try apply app_nil_r; reflexivity.
Qed.

Lemma comms_snoc l t j a :
  comms (l ++ [(t, j, a)]) = comms l ++ match a with ASend _ v => [(j, v)] | _ => [] end.
Proof.
  unfold comms. rewrite omap_app. destruct a; simpl; try apply app_nil_r; reflexivity.
Qed.

Lemma comms_app (l l' : list Entry) : comms (l ++ l') = comms l ++ comms l'.
Proof. unfold comms. apply omap_app. Qed.

Lemma deliveries_snoc l t j a :
  deliveries (l ++ [(t, j, a)])
  = deliveries l ++ match a with ARecv _ v => [(j, v)] | _ => [] end.
Proof.
  unfold deliveries. rewrite omap_app. destruct a; simpl; try apply app_nil_r; reflexivity.
Qed.

Lemma stamps_snoc l t j a : stamps (l ++ [(t, j, a)]) = stamps l ++ [t].
Proof. unfold stamps. rewrite map_app. reflexivity. Qed.

(** No entry of a goroutine that is not in the pool. *)
Lemma proj_outside i (ps : list Prog) (l : list Entry) :
  Forall (fun e : Entry => (snd (fst e) < length ps)%nat) l ->
  (length ps <= i)%nat ->
  proj i l = [].
Proof.
  intros Hall Hi. induction Hall as [|[[t j] a] l Hj _ IH]; [reflexivity |].
  unfold proj in *. simpl in *.
  destruct (decide (j = i)); [lia | exact IH].
Qed.

(** One goroutine acts: pool and log still fit together. *)
Lemma traced_act p0 ps l i p now fresh r a p' :
  traced p0 ps l ->
  ps !! i = Some p ->
  fire now fresh p r = Some (a, p') ->
  traced p0 (<[i := p']> ps ++ started a) (l ++ [(now, i, a)]).
Proof.
  intros (Hids & Hlen & Hwalk) Hp Hf.
  assert (Hi : (i < length ps)%nat) by (eapply lookup_lt_Some; exact Hp).
  split; [| split].
  - apply Forall_app. split.
    + eapply Forall_impl; [exact Hids |]. intros e He. simpl in He.
      rewrite length_app, length_insert. lia.
    + constructor; [| constructor]. simpl. rewrite length_app, length_insert. lia.
  - rewrite spawned_snoc, !length_app, length_insert. lia.
  - intros i' q Hq. rewrite spawned_snoc, proj_snoc.
    destruct (decide (i' < length ps)%nat) as [Hlt | Hge].
    + rewrite lookup_app_l in Hq by (rewrite length_insert; exact Hlt).
      destruct (decide (i = i')) as [<- | Hne].
      * rewrite list_lookup_insert_eq in Hq by exact Hi.
        inversion Hq; subst q.
        destruct (Hwalk i p Hp) as (o & Ho & Hw).
        exists o. split.
        -- change (p0 :: spawned l ++ started a) with ((p0 :: spawned l) ++ started a).
           rewrite lookup_app_l; [exact Ho |]. simpl. lia.
        -- eapply walk_snoc; [exact Hw | exact Hf].
      * rewrite list_lookup_insert_ne in Hq by exact Hne.
        destruct (Hwalk i' q Hq) as (o & Ho & Hw).
        exists o. split; [| exact Hw].
        change (p0 :: spawned l ++ started a) with ((p0 :: spawned l) ++ started a).
        rewrite lookup_app_l; [exact Ho |]. simpl. lia.
    + rewrite lookup_app_r in Hq by (rewrite length_insert; lia).
      rewrite length_insert in Hq.
      destruct a; simpl in Hq; try (rewrite lookup_nil in Hq; discriminate).
      destruct (i' - length ps)%nat as [|d] eqn:Hd; simpl in Hq; [| discriminate].
      inversion Hq; subst q.
      destruct (decide (i = i')) as [-> | Hne]; [lia |].
      exists g. split.
      * change (p0 :: spawned l ++ started (AGo g))
          with ((p0 :: spawned l) ++ [g]).
        rewrite lookup_app_r by (simpl; lia).
        simpl. replace (i' - S (length (spawned l)))%nat with 0%nat by lia.
        reflexivity.
      * rewrite (proj_outside i' ps l Hids) by lia. apply walk_done.
Qed.

Lemma sorted_snoc (l : list Z) x :
  StronglySorted Z.le l -> Forall (fun y => y <= x) l -> StronglySorted Z.le (l ++ [x]).
Proof.
  induction 1 as [|y l Hs IH Hy]; intros Hall; simpl.
  - constructor; constructor.
  - inversion Hall; subst. constructor.
    + apply IH. assumption.
    + apply Forall_app. split; [exact Hy | constructor; [assumption | constructor]].
Qed.

Lemma consistent_boot p0 : consistent p0 (boot p0).
Proof.
  constructor; simpl.
  - split; [constructor |]. split; [reflexivity |].
    intros [|i] p Hp; simpl in Hp; [| rewrite lookup_nil in Hp; discriminate].
    inversion Hp; subst. exists p. split; [reflexivity | apply walk_done].
  - reflexivity.
  - reflexivity.
  - split; [constructor |]. split; [constructor | lia].
Qed.

Lemma consistent_step p0 s c s' :
  consistent p0 s -> transition s c s' -> consistent p0 s'.
Proof.
  intros [Htr Hout Hcomm (Hsorted & Hbound & Hclock)] Ht.
  assert (Htime : forall dt, 0 <= dt ->
            StronglySorted Z.le (stamps (log s) ++ [clock s + dt]) /\
            Forall (fun t => 0 <= t <= clock s + dt) (stamps (log s) ++ [clock s + dt])).
  { intros dt Hdt. split.
    - apply sorted_snoc; [exact Hsorted |].
      eapply Forall_impl; [exact Hbound |]. simpl. intros t Ht'. lia.
    - apply Forall_app. split.
      + eapply Forall_impl; [exact Hbound |]. simpl. intros t Ht'. lia.
      + constructor; [lia | constructor]. }
  destruct Ht as [s i dt r p a p' Hfin Hdt Hp Hf Hc
                 | s i j dt ch v k k' Hfin Hdt Hij Hi Hj];
    constructor; simpl.
  - eapply traced_act; eauto.
  - rewrite prints_snoc, Hout. reflexivity.
  - rewrite comms_snoc, deliveries_snoc.
    destruct a; simpl in Hc; try discriminate; rewrite !app_nil_r; exact Hcomm.
  - rewrite stamps_snoc. destruct (Htime dt Hdt) as [H1 H2].
    split; [exact H1 |]. split; [exact H2 | lia].
  - assert (H1 : traced p0 (<[i := k]> (pool s) ++ started (ASend ch v))
                   (log s ++ [(clock s + dt, i, ASend ch v)])).
    { eapply (traced_act p0 (pool s) (log s) i _ (clock s + dt) 0%nat RNone);
        [exact Htr | exact Hi | reflexivity]. }
    simpl in H1. rewrite app_nil_r in H1.
    assert (H2 : traced p0 (<[j := k' v]> (<[i := k]> (pool s)) ++ started (ARecv ch v))
                   ((log s ++ [(clock s + dt, i, ASend ch v)])
                      ++ [(clock s + dt, j, ARecv ch v)])).
    { eapply (traced_act p0 _ _ j (ChanRecv ch k') (clock s + dt) 0%nat (RMsg v));
        [exact H1 | | reflexivity].
      rewrite list_lookup_insert_ne by exact Hij. exact Hj. }
    simpl in H2. rewrite app_nil_r, <- app_assoc in H2. exact H2.
  - change (log s ++ [(clock s + dt, i, ASend ch v); (clock s + dt, j, ARecv ch v)])
      with (log s ++ [(clock s + dt, i, ASend ch v)] ++ [(clock s + dt, j, ARecv ch v)]).
    rewrite app_assoc, !prints_snoc. simpl. rewrite !app_nil_r. exact Hout.
  - change (log s ++ [(clock s + dt, i, ASend ch v); (clock s + dt, j, ARecv ch v)])
      with (log s ++ [(clock s + dt, i, ASend ch v)] ++ [(clock s + dt, j, ARecv ch v)]).
    rewrite app_assoc, !comms_snoc, !deliveries_snoc. simpl.
    rewrite !app_nil_r, !map_app, Hcomm. reflexivity.
  - change (log s ++ [(clock s + dt, i, ASend ch v); (clock s + dt, j, ARecv ch v)])
      with (log s ++ [(clock s + dt, i, ASend ch v)] ++ [(clock s + dt, j, ARecv ch v)]).
    rewrite app_assoc, !stamps_snoc.
    destruct (Htime dt Hdt) as [H1 H2].
    split; [| split; [| lia]].
    + apply sorted_snoc; [exact H1 |].
      eapply Forall_impl; [exact H2 |]. simpl. intros t Ht'. lia.
    + apply Forall_app. split; [exact H2 | constructor; [lia | constructor]].
Qed.

(** Every state a process started from [p0] can reach is consistent. *)
Lemma consistent_exec p0 cs s : exec (boot p0) cs = Some s -> consistent p0 s.
Proof.
  apply (exec_invariant (consistent p0)).
  - intros s1 c s2. apply consistent_step.
  - apply consistent_boot.
Qed.

Lemma sum_list_insert (ws : list nat) i x y :
  ws !! i = Some x -> (sum_list (<[i := y]> ws) + x = sum_list ws + y)%nat.
Proof.
  revert i. induction ws as [|w ws IH]; intros [|i] H; simpl in *; try discriminate.
  - inversion H; subst. lia.
  - specialize (IH i H). lia.
Qed.

Lemma sum_list_positive (ws : list nat) :
  (0 < sum_list ws)%nat -> exists j n, ws !! j = Some (S n).
Proof.
  induction ws as [|w ws IH]; simpl; intros H; [lia |].
  destruct w as [|w].
  - destruct IH as (j & n & Hj); [lia |]. exists (S j), n. exact Hj.
  - exists 0%nat, w. reflexivity.
Qed.

Lemma sum_list_zero (ws : list nat) j n :
  sum_list ws = 0%nat -> ws !! j = Some n -> n = 0%nat.
Proof.
  revert j. induction ws as [|w ws IH]; intros [|j] Hs H; simpl in *; try discriminate.
  - inversion H; subst. lia.
  - apply (IH j); [lia | exact H].
Qed.

Lemma balanced_boot p0 : opener p0 -> balanced (boot p0).
Proof.
  intros Ho. split; [reflexivity |]. split; [constructor |].
  left. exists p0. split; [reflexivity | exact Ho].
Qed.

Lemma balanced_step s c s' : balanced s -> transition s c s' -> balanced s'.
Proof.
  intros (Hst & Hlog & Hshape) Ht.
  destruct Ht as [s i dt r p a p' Hfin Hdt Hp Hf Hc
                 | s i j dt ch v k k' Hfin Hdt Hij Hi Hj].
  - (* a step of one goroutine *)
    destruct Hshape as [(q & Hpool & Hopen) | (c & ws & m & rest & Hpool & Hm & Hrest)].
    + rewrite Hpool in Hp.
      destruct i as [|i]; simpl in Hp; [| rewrite lookup_nil in Hp; discriminate].
      inversion Hp; subst q.
      destruct Hopen as [k Hk | k Hk]; simpl in Hf; inversion Hf; subst a p'.
      * split; [reflexivity |]. split.
        { simpl. apply Forall_app. split; [exact Hlog |].
          constructor; [| constructor]. simpl. intros H; contradiction. }
        left. simpl. rewrite Hpool. simpl. eexists. split; [reflexivity | apply Hk].
      * split; [reflexivity |]. split.
        { simpl. apply Forall_app. split; [exact Hlog |].
          constructor; [| constructor]. simpl. intros H; contradiction. }
        right. simpl. rewrite Hpool. simpl.
        exists (chans s), [], (k (chans s)), []. split; [reflexivity |].
        split; [apply Hk | constructor].
    + rewrite Hpool in Hp. destruct i as [|i]; simpl in Hp.
      * (* main *)
        inversion Hp; subst p.
        assert (Hlog' : Forall (fun e : Entry => snd (fst e) <> 0%nat ->
                                  sender_action (snd e) = true)
                          (log s ++ [(clock s + dt, 0%nat, a)])).
        { apply Forall_app. split; [exact Hlog |].
          constructor; [| constructor]. simpl. intros H; contradiction. }
        remember (sum_list ws) as total eqn:Htotal.
        destruct Hm as [|a0 k Hk|a0 st k Hk|a0 x k Hk|a0 n g k Hg Hk|a0 k Hk];
          simpl in Hf; try discriminate; try subst a0.
        -- inversion Hf; subst a p'. split; [reflexivity |]. split; [exact Hlog' |].
           right. simpl. rewrite Hpool. simpl. rewrite app_nil_r.
           exists c, ws, (k (clock s + dt)), rest. auto.
        -- inversion Hf; subst a p'. split; [reflexivity |]. split; [exact Hlog' |].
           right. simpl. rewrite Hpool. simpl. rewrite app_nil_r.
           exists c, ws, (k (Sub (clock s + dt) st)), rest. auto.
        -- inversion Hf; subst a p'. split; [reflexivity |]. split; [exact Hlog' |].
           right. simpl. rewrite Hpool. simpl. rewrite app_nil_r.
           exists c, ws, k, rest. auto.
        -- inversion Hf; subst a p'. split; [reflexivity |]. split; [exact Hlog' |].
           right. simpl. rewrite Hpool. simpl.
           exists c, (ws ++ [n]), k, (rest ++ [g]). split; [reflexivity |]. split.
           ++ rewrite sum_list_with_app. simpl.
              replace (sum_list ws + (n + 0))%nat with (sum_list ws + n)%nat by lia.
              exact Hk.
           ++ apply Forall2_app; [exact Hrest | constructor; [exact Hg | constructor]].
        -- destruct r; try discriminate. inversion Hf; subst a p'. discriminate.
      * (* a sender *)
        destruct (Forall2_lookup_r _ _ _ _ _ Hrest Hp) as (n & Hn & Hsender).
        destruct (sender_fire _ _ _ _ _ _ _ _ Hsender Hf) as [Hact Hnext].
        assert (Hp' : sender c n p').
        { destruct a; simpl in Hact, Hc; try discriminate; exact Hnext. }
        assert (Hstart : started a = []).
        { destruct a; simpl in Hact; try discriminate; reflexivity. }
        split; [destruct a; simpl in Hact; try discriminate; reflexivity |].
        split.
        { simpl. apply Forall_app. split; [exact Hlog |].
          constructor; [| constructor]. simpl. intros _. exact Hact. }
        right. simpl. rewrite Hpool. fold (started a). rewrite Hstart, app_nil_r.
        simpl. exists c, ws, m, (<[i := p']> rest).
        split; [reflexivity |]. split; [exact Hm |].
        rewrite <- (list_insert_id ws i n Hn).
        apply Forall2_insert; assumption.
  - (* a hand-over *)
    destruct Hshape as [(q & Hpool & Hopen) | (c & ws & m & rest & Hpool & Hm & Hrest)].
    + rewrite Hpool in Hi, Hj.
      destruct i as [|i]; simpl in Hi; [| rewrite lookup_nil in Hi; discriminate].
      destruct j as [|j]; simpl in Hj; [contradiction | rewrite lookup_nil in Hj; discriminate].
    + rewrite Hpool in Hi, Hj.
      destruct i as [|i]; simpl in Hi.
      { inversion Hi; subst m. inversion Hm. }
      destruct (Forall2_lookup_r _ _ _ _ _ Hrest Hi) as (n & Hn & Hsender).
      assert (Hch : ch = c) by (inversion Hsender; reflexivity). subst ch.
      inversion Hsender as [| | | | | |n' v' k0 Hk0]; subst.
      destruct j as [|j]; simpl in Hj.
      2:{ destruct (Forall2_lookup_r _ _ _ _ _ Hrest Hj) as (n2 & _ & Hbad).
          inversion Hbad. }
      inversion Hj; subst m.
      inversion Hm as [| | | | |a0 k0 Hk0' Ha0]; subst.
      split; [reflexivity |]. split.
      { simpl. apply Forall_app. split; [exact Hlog |].
        constructor; [simpl; intros _; reflexivity |].
        constructor; [simpl; intros H; contradiction | constructor]. }
      right. simpl. rewrite Hpool. simpl.
      exists c, (<[i := n']> ws), (k' v), (<[i := k]> rest).
      split; [reflexivity |]. split.
      * pose proof (sum_list_insert ws i (S n') n' Hn) as Hsum.
        replace (sum_list (<[i := n']> ws)) with a0 by lia.
        apply Hk0'.
      * apply Forall2_insert; assumption.
Qed.

(** Every state a process can reach from a balanced start is balanced. *)
Lemma balanced_exec p0 cs s :
  opener p0 -> exec (boot p0) cs = Some s -> balanced s.
Proof.
  intros Ho. apply (exec_invariant balanced).
  - intros s1 c s2. apply balanced_step.
  - apply balanced_boot. exact Ho.
Qed.

(** A balanced process that is not over can take a step: it never comes
    to a halt with every goroutine waiting. *)
Lemma balanced_progress s :
  balanced s -> finished s = false -> exists c s', step s c = Some s'.
Proof.
  intros (Hst & _ & Hshape) Hfin.
  assert (Hrun : forall i p r a p',
             pool s !! i = Some p ->
             fire (clock s + 0) (chans s) p r = Some (a, p') ->
             is_comm a = false ->
             exists c s', step s c = Some s').
  { intros i p r a p' Hp Hf Hc. exists (Run i 0 r). eexists.
    apply transition_step. eapply transition_run; eauto. lia. }
  destruct Hshape as [(q & Hpool & Hopen) | (c & ws & m & rest & Hpool & Hm & Hrest)].
  - destruct Hopen as [k Hk | k Hk].
    + eapply (Hrun 0%nat _ RNone); [rewrite Hpool; reflexivity | reflexivity | reflexivity].
    + eapply (Hrun 0%nat _ RNone); [rewrite Hpool; reflexivity | reflexivity | reflexivity].
  - remember (sum_list ws) as total eqn:Htotal.
    destruct Hm as [|a0 k Hk|a0 st k Hk|a0 x k Hk|a0 n g k Hg Hk|a0 k Hk].
    + unfold finished in Hfin. rewrite Hst, Hpool in Hfin. discriminate.
    + eapply (Hrun 0%nat _ RNone); [rewrite Hpool; reflexivity | reflexivity | reflexivity].
    + eapply (Hrun 0%nat _ RNone); [rewrite Hpool; reflexivity | reflexivity | reflexivity].
    + eapply (Hrun 0%nat _ RNone); [rewrite Hpool; reflexivity | reflexivity | reflexivity].
    + eapply (Hrun 0%nat _ RNone); [rewrite Hpool; reflexivity | reflexivity | reflexivity].
    + destruct (sum_list_positive ws) as (j & n & Hj); [lia |].
      destruct (Forall2_lookup_l _ _ _ _ _ Hrest Hj) as (p & Hp & Hsender).
      assert (Hp' : pool s !! S j = Some p) by (rewrite Hpool; exact Hp).
      inversion Hsender as [ |n1 k1 Hk1|n1 st k1 Hk1|n1 u k1 Hk1|n1 b k1 Hk1|n1 b k1 Hk1
                             |n1 v k1 Hk1]; subst.
      * eapply (Hrun (S j) _ RNone); [exact Hp' | reflexivity | reflexivity].
      * eapply (Hrun (S j) _ RNone); [exact Hp' | reflexivity | reflexivity].
      * eapply (Hrun (S j) _ (RGet (inr (mkError EmptyString))));
          [exact Hp' | reflexivity | reflexivity].
      * eapply (Hrun (S j) _ (RCopy 0 None)); [exact Hp' | reflexivity | reflexivity].
      * eapply (Hrun (S j) _ RNone); [exact Hp' | reflexivity | reflexivity].
      * exists (Sync (S j) 0 0). eexists. apply transition_step.
        eapply transition_sync; [exact Hfin | lia | lia | exact Hp' |].
        rewrite Hpool. reflexivity.
Qed.

Lemma within_step b s c s' : within b s -> transition s c s' -> within b s'.
Proof.
  intros (cs & Hcs & Hle) Ht.
  destruct Ht as [s i dt r p a p' Hfin Hdt Hp Hf Hc
                 | s i j dt ch v k k' Hfin Hdt Hij Hi Hj]; unfold within; simpl.
  - destruct (Forall2_lookup_r _ _ _ _ _ Hcs Hp) as (n & Hn & Hcost).
    pose proof (cost_fire _ _ _ _ _ _ _ Hcost Hf) as Hnext.
    rewrite length_app. simpl.
    destruct a; try (destruct Hnext as (y & Hy & Hle');
                     exists (<[i := y]> cs); rewrite app_nil_r; split;
                     [apply Forall2_insert; assumption
                     | pose proof (sum_list_insert cs i n y Hn); lia]).
    destruct Hnext as (x & y & Hx & Hy & Hle').
    exists (<[i := y]> cs ++ [x]). split.
    + apply Forall2_app; [apply Forall2_insert; assumption |].
      constructor; [exact Hx | constructor].
    + rewrite sum_list_with_app. simpl.
      pose proof (sum_list_insert cs i n y Hn). lia.
  - destruct (Forall2_lookup_r _ _ _ _ _ Hcs Hi) as (n & Hn & Hcost).
    destruct (Forall2_lookup_r _ _ _ _ _ Hcs Hj) as (n2 & Hn2 & Hcost2).
    inversion Hcost as [| | | | | | |n' ch1 v1 k1 Hk1| | | | ]; subst.
    inversion Hcost2 as [| | | | | | | |n2' ch2 k2 Hk2| | | ]; subst.
    exists (<[j := n2']> (<[i := n']> cs)). split.
    + apply Forall2_insert; [apply Forall2_insert; assumption | apply Hk2].
    + rewrite length_app. simpl.
      pose proof (sum_list_insert cs i (S n') n' Hn) as H1.
      assert (Hn2' : <[i := n']> cs !! j = Some (S n2'))
        by (rewrite list_lookup_insert_ne by exact Hij; exact Hn2).
      pose proof (sum_list_insert _ j (S n2') n2' Hn2') as H2.
      lia.
Qed.

Lemma exec_log_length cs : forall s s',
  exec s cs = Some s' -> (length (log s) + length cs <= length (log s'))%nat.
Proof.
  induction cs as [|c cs IH]; intros s s' He; simpl in He.
  - inversion He; subst. simpl. lia.
  - destruct (step s c) as [s1|] eqn:E; [| discriminate].
    specialize (IH _ _ He).
    apply step_transition in E.
    assert (length (log s) < length (log s1))%nat.
    { destruct E; simpl; rewrite length_app; simpl; lia. }
    simpl. lia.
Qed.

(** A process whose [main] costs at most [b] stops within [b] steps,
    however it is scheduled. *)
Lemma exec_bounded b p0 cs s :
  cost b p0 -> exec (boot p0) cs = Some s -> (length cs <= b)%nat.
Proof.
  intros Hcost He.
  assert (Hw : within b s).
  { revert He. apply (exec_invariant (within b)).
    - intros s1 c s2. apply within_step.
    - exists [b]. split; [constructor; [exact Hcost | constructor] | simpl; lia]. }
  destruct Hw as (cs' & _ & Hle).
  pose proof (exec_log_length _ _ _ He) as Hlen. simpl in Hlen. lia.
Qed.

(** When only [main] prints, starts goroutines and receives, the log of
    the process says no more about these than the run of [main]. *)
Lemma prints_main (l : list Entry) :
  Forall (fun e : Entry => snd (fst e) <> 0%nat -> sender_action (snd e) = true) l ->
  prints l = printed (proj 0 l).
Proof.
  induction 1 as [|[[t j] a] l' Hj _ IH]; [reflexivity |].
  unfold prints, printed, proj in *. simpl in *.
  destruct (decide (j = 0%nat)) as [-> | Hne].
  - destruct a; simpl; first [exact IH | f_equal; exact IH].
  - specialize (Hj Hne). destruct a; simpl in *; try discriminate; exact IH.
Qed.

Lemma spawned_main (l : list Entry) :
  Forall (fun e : Entry => snd (fst e) <> 0%nat -> sender_action (snd e) = true) l ->
  spawned l = started_in (proj 0 l).
Proof.
  induction 1 as [|[[t j] a] l' Hj _ IH]; [reflexivity |].
  unfold spawned, started_in, proj in *. simpl in *.
  destruct (decide (j = 0%nat)) as [-> | Hne].
  - destruct a; simpl; first [exact IH | f_equal; exact IH].
  - specialize (Hj Hne). destruct a; simpl in *; try discriminate; exact IH.
Qed.

Lemma deliveries_main (l : list Entry) :
  Forall (fun e : Entry => snd (fst e) <> 0%nat -> sender_action (snd e) = true) l ->
  deliveries l = map (fun x => (0%nat, snd x)) (received_values (proj 0 l)).
Proof.
  induction 1 as [|[[t j] a] l' Hj _ IH]; [reflexivity |].
  unfold deliveries, received_values, proj in *. simpl in *.
  destruct (decide (j = 0%nat)) as [-> | Hne].
  - destruct a; simpl; first [exact IH | f_equal; exact IH].
  - specialize (Hj Hne). destruct a; simpl in *; try discriminate; exact IH.
Qed.

Lemma In_proj t j a (l : list Entry) : In (t, j, a) l -> In (t, a) (proj j l).
Proof.
  induction l as [|[[t' i] a'] l IH]; simpl; [tauto |].
  unfold proj in *. simpl. intros [Heq | Hin].
  - inversion Heq; subst. destruct (decide (j = j)); [left; reflexivity | contradiction].
  - destruct (decide (i = j)); [right |]; apply IH; exact Hin.
Qed.

(** The log of a process starts with a step of [main]. *)
Lemma log_head p0 cs s :
  exec (boot p0) cs = Some s ->
  (log s = [] /\ length (pool s) = 1%nat) \/ exists t a rest, log s = (t, 0%nat, a) :: rest.
Proof.
  apply (exec_invariant
           (fun s => (log s = [] /\ length (pool s) = 1%nat)
                     \/ exists t a rest, log s = (t, 0%nat, a) :: rest)).
  - intros s1 c s2 Hs Ht. right.
    destruct Ht as [s1 i dt r p a p' Hfin Hdt Hp Hf Hc
                   | s1 i j dt ch v k k' Hfin Hdt Hij Hi Hj]; simpl.
    + destruct Hs as [(Hnil & Hone) | (t & a0 & rest & Hlog)].
      * apply lookup_lt_Some in Hp. rewrite Hnil.
        assert (i = 0%nat) as -> by lia. simpl. eauto.
      * rewrite Hlog. simpl. eauto.
    + destruct Hs as [(Hnil & Hone) | (t & a0 & rest & Hlog)].
      * apply lookup_lt_Some in Hi, Hj. lia.
      * rewrite Hlog. simpl. eauto.
  - left. split; reflexivity.
Qed.

Lemma proj_stamps (P : Time -> Prop) i (l : list Entry) :
  Forall P (stamps l) -> Forall P (map fst (proj i l)).
Proof.
  induction l as [|[[t j] a] l IH]; intros H; [constructor |].
  inversion H as [|? ? Ht Hl]; subst.
  unfold proj in *. simpl.
  destruct (decide (j = i)); [constructor; [exact Ht |] |]; apply IH; exact Hl.
Qed.

(** The run of a goroutine keeps the order of time. *)
Lemma proj_sorted i (l : list Entry) :
  StronglySorted Z.le (stamps l) -> StronglySorted Z.le (map fst (proj i l)).
Proof.
  induction l as [|[[t j] a] l IH]; intros H; [constructor |].
  inversion H as [|? ? Hs Hall]; subst.
  pose proof (proj_stamps _ i l Hall) as Hall'.
  unfold proj in *. simpl.
  destruct (decide (j = i)); [constructor; [apply IH; exact Hs | exact Hall'] |].
  apply IH. exact Hs.
Qed.

(** The hand-overs of one sender are the values its own run sends. *)
Lemma comms_of_sender j (l : list Entry) :
  filter (fun x : nat * string => fst x = j) (comms l)
  = map (fun x => (j, snd x)) (sent_values (proj j l)).
Proof.
  induction l as [|[[t i] a] l IH]; [reflexivity |].
  unfold comms, sent_values, proj in *. simpl.
  destruct (decide (i = j)) as [-> | Hne].
  - destruct a; simpl; try exact IH.
    rewrite filter_cons. simpl.
    destruct (decide (j = j)); [| contradiction]. f_equal. exact IH.
  - destruct a; simpl; try exact IH.
    rewrite filter_cons. simpl.
    destruct (decide (i = j)); [contradiction | exact IH].
Qed.

Lemma senders_count j (l : list Entry) :
  count_occ Nat.eq_dec (map fst (comms l)) j = length (sent_values (proj j l)).
Proof.
  induction l as [|[[t i] a] l IH]; [reflexivity |].
  unfold comms, sent_values, proj in *. simpl.
  destruct (decide (i = j)) as [-> | Hne].
  - destruct a; simpl; try exact IH.
    destruct (Nat.eq_dec j j); [| contradiction]. f_equal. exact IH.
  - destruct a; simpl; try exact IH.
    destruct (Nat.eq_dec i j); [contradiction | exact IH].
Qed.

End SchedFacts.

(** ** main.go *)

Module FetchallFacts.
Import GoFmt Lang Sched Fetchall GoFmtFacts LangFacts SchedFacts.

Lemma fetch_sender url ch : sender ch 1 (fetch url ch).
Proof.
  unfold fetch. constructor. intros start. constructor. intros [resp | err].
  - constructor. intros [nbytes [err|]].
    + constructor. constructor. constructor.
    + constructor. constructor. intros d. constructor. constructor.
  - constructor. constructor.
Qed.

Lemma fetch_cost url ch : cost 6 (fetch url ch).
Proof.
  unfold fetch. constructor. intros start. constructor. intros [resp | err].
  - constructor. intros [nbytes [err|]].
    + constructor. constructor. constructor.
    + constructor. constructor. intros d. constructor. constructor.
  - constructor. constructor.
Qed.

Lemma spawn_all_collector ch urls k : forall a,
  collector ch (a + length urls) k -> collector ch a (spawn_all urls ch k).
Proof.
  induction urls as [|url rest IH]; intros a Hk; simpl in *.
  - replace a with (a + 0)%nat by lia. exact Hk.
  - eapply collector_Go; [apply fetch_sender |].
    apply IH. replace (a + 1 + length rest)%nat with (a + S (length rest))%nat by lia.
    exact Hk.
Qed.

Lemma collect_all_collector ch urls k :
  collector ch 0 k -> collector ch (length urls) (collect_all urls ch k).
Proof.
  intros Hk. induction urls as [|url rest IH]; simpl.
  - exact Hk.
  - constructor. intros v. constructor. exact IH.
Qed.

Lemma main_opener args : opener (main args).
Proof.
  unfold main. constructor. intros start. constructor. intros ch.
  apply spawn_all_collector. simpl. apply collect_all_collector.
  constructor. intros d. constructor. constructor.
Qed.

Lemma spawn_all_cost ch urls k n :
  cost n k -> cost (7 * length urls + n) (spawn_all urls ch k).
Proof.
  intros Hk. induction urls as [|url rest IH]; simpl.
  - exact Hk.
  - replace (S (length rest + _ + n))%nat
      with (S (6 + (7 * length rest + n)))%nat by lia.
    constructor; [apply fetch_cost | exact IH].
Qed.

Lemma collect_all_cost ch urls k n :
  cost n k -> cost (2 * length urls + n) (collect_all urls ch k).
Proof.
  intros Hk. induction urls as [|url rest IH]; simpl.
  - exact Hk.
  - replace (S (length rest + _ + n))%nat
      with (S (S (2 * length rest + n)))%nat by lia.
    constructor. intros v. constructor. exact IH.
Qed.

Lemma main_cost args : cost (9 * length args + 4) (main args).
Proof.
  unfold main.
  replace (9 * length args + 4)%nat
    with (S (S (7 * length args + (2 * length args + 2))))%nat by lia.
  constructor. intros start. constructor. intros ch.
  apply spawn_all_cost. apply collect_all_cost.
  constructor. intros d. constructor. constructor.
Qed.

(** Take the next step of a run whose program is known. *)
Ltac walk_next H :=
  let Hf := fresh "Hf" in
  let Hw := fresh "Hw" in
  inversion H as [| ? ? ? ? ? ? ? ? Hf Hw]; subst; clear H;
  try (cbn [fire] in Hf;
       repeat match type of Hf with
              | context [match ?x with _ => _ end] => destruct x eqn:?; try discriminate
              end;
       inversion Hf; subst; clear Hf).

(** A run of [fetch] that has sent its value is one of the three complete
    runs, and [fetch] has returned. *)
Lemma fetch_walk_complete url ch l q :
  walk (fetch url ch) l q -> sent_values l <> [] -> fetch_run url ch l /\ q = Return.
Proof.
  unfold fetch. intros Hw Hsent.
  repeat match goal with
         | H : walk _ _ _ |- _ => walk_next H
         end;
    try (exfalso; apply Hsent; reflexivity);
    (split; [constructor | reflexivity]).
Qed.

Lemma spawn_all_walk ch urls k : forall l,
  walk (spawn_all urls ch k) l Return ->
  exists ts l', length ts = length urls /\ l = spawn_run ch ts urls ++ l'
                /\ walk k l' Return.
Proof.
  induction urls as [|url rest IH]; intros l Hw; simpl in Hw.
  - exists [], l. split; [reflexivity |]. split; [reflexivity | exact Hw].
  - walk_next Hw.
    destruct (IH _ Hw0) as (ts & l' & Hlen & -> & Hk).
    exists (now :: ts), l'. split; [simpl; lia |]. split; [reflexivity | exact Hk].
Qed.

Lemma collect_all_walk ch urls k : forall l,
  walk (collect_all urls ch k) l Return ->
  exists rs l', length rs = length urls /\ l = collect_run ch rs ++ l'
                /\ walk k l' Return.
Proof.
  induction urls as [|url rest IH]; intros l Hw; simpl in Hw.
  - exists [], l. split; [reflexivity |]. split; [reflexivity | exact Hw].
  - walk_next Hw. walk_next Hw0.
    destruct (IH _ Hw) as (rs & l' & Hlen & -> & Hk).
    exists (mkReceipt now v now0 :: rs), l'.
    split; [simpl; lia |]. split; [reflexivity | exact Hk].
Qed.

(** A run of [main] from start to return: one clock reading, the channel,
    a [go] statement per argument, a receive and a print per argument, the
    second clock reading and the summary. *)
Lemma main_walk args l :
  walk (main args) l Return ->
  exists ch t0 t1 ts rs t2 t3,
    length ts = length args /\ length rs = length args /\
    l = main_run args ch t0 t1 ts rs t2 t3.
Proof.
  unfold main. intros Hw.
  walk_next Hw. walk_next Hw0.
  destruct (spawn_all_walk _ _ _ _ Hw) as (ts & l1 & Hts & -> & Hw1).
  destruct (collect_all_walk _ _ _ _ Hw1) as (rs & l2 & Hrs & -> & Hw2).
  walk_next Hw2. walk_next Hw0. walk_next Hw2.
  exists fresh0, now, now0, ts, rs, now1, now2.
  split; [exact Hts |]. split; [exact Hrs | reflexivity].
Qed.

Lemma started_in_spawn_run ch urls : forall ts,
  length ts = length urls ->
  started_in (spawn_run ch ts urls) = map (fun url => fetch url ch) urls.
Proof.
  induction urls as [|url rest IH]; intros [|t ts] Hlen; simpl in *; try discriminate.
  - reflexivity.
  - unfold started_in in *. simpl. f_equal. apply IH. lia.
Qed.

Lemma started_in_collect_run ch rs : started_in (collect_run ch rs) = [].
Proof. induction rs as [|r rs IH]; [reflexivity | exact IH]. Qed.

Lemma printed_spawn_run ch urls : forall ts, printed (spawn_run ch ts urls) = [].
Proof.
  induction urls as [|url rest IH]; intros [|t ts]; simpl; try reflexivity.
  apply IH.
Qed.

Lemma printed_collect_run ch rs :
  printed (collect_run ch rs) = map (fun r => Sprintln [VString (value r)]) rs.
Proof.
  induction rs as [|r rs IH]; [reflexivity |].
  unfold printed in *. simpl. f_equal. exact IH.
Qed.

Lemma received_spawn_run ch urls : forall ts, received_values (spawn_run ch ts urls) = [].
Proof.
  induction urls as [|url rest IH]; intros [|t ts]; simpl; try reflexivity.
  apply IH.
Qed.

Lemma received_collect_run ch rs :
  received_values (collect_run ch rs) = map (fun r => (ch, value r)) rs.
Proof.
  induction rs as [|r rs IH]; [reflexivity |].
  unfold received_values in *. simpl. f_equal. exact IH.
Qed.

Lemma sent_spawn_run ch urls : forall ts, sent_values (spawn_run ch ts urls) = [].
Proof.
  induction urls as [|url rest IH]; intros [|t ts]; simpl; try reflexivity.
  apply IH.
Qed.

Lemma sent_collect_run ch rs : sent_values (collect_run ch rs) = [].
Proof. induction rs as [|r rs IH]; [reflexivity | exact IH]. Qed.

(** What [main] starts, prints, receives and sends in a complete run. *)
Lemma main_run_facts args ch t0 t1 ts rs t2 t3 :
  length ts = length args ->
  let l := main_run args ch t0 t1 ts rs t2 t3 in
  started_in l = map (fun url => fetch url ch) args /\
  printed l = map (fun r => Sprintln [VString (value r)]) rs ++ [summary (Sub t2 t0)] /\
  received_values l = map (fun r => (ch, value r)) rs /\
  sent_values l = [].
Proof.
  intros Hts l. subst l. unfold main_run.
  repeat split.
  - unfold started_in. simpl. rewrite !omap_app.
    fold (started_in (spawn_run ch ts args)). fold (started_in (collect_run ch rs)).
    rewrite started_in_spawn_run by exact Hts.
    rewrite started_in_collect_run. simpl. apply app_nil_r.
  - unfold printed. simpl. rewrite !omap_app.
    fold (printed (spawn_run ch ts args)). fold (printed (collect_run ch rs)).
    rewrite printed_spawn_run, printed_collect_run. reflexivity.
  - unfold received_values. simpl. rewrite !omap_app.
    fold (received_values (spawn_run ch ts args)).
    fold (received_values (collect_run ch rs)).
    rewrite received_spawn_run, received_collect_run. simpl. apply app_nil_r.
  - unfold sent_values. simpl. rewrite !omap_app.
    fold (sent_values (spawn_run ch ts args)). fold (sent_values (collect_run ch rs)).
    rewrite sent_spawn_run, sent_collect_run. reflexivity.
Qed.

(** Once [main] has returned the process is settled. *)
Lemma final_state args cs s :
  exec (boot (main args)) cs = Some s ->
  finished s = true ->
  exists ch t0 t1 ts rs t2 t3, settled args s ch t0 t1 ts rs t2 t3.
Proof.
  intros He Hfin.
  destruct (balanced_exec _ _ _ (main_opener args) He) as (Hst & Hlog & Hshape).
  destruct (consistent_exec _ _ _ He)
    as [(Hids & Hlen & Hwalk) Hout Hcomm (Hsorted & _)].
  unfold finished in Hfin. rewrite Hst in Hfin.
  destruct Hshape as [(q & Hpool & Hopen) | (c & ws & m & rest & Hpool & Hm & Hrest)];
    rewrite Hpool in Hfin.
  { destruct Hopen; discriminate. }
  destruct m; try discriminate.
  assert (Hzero : sum_list ws = 0%nat) by (inversion Hm; reflexivity).
  destruct (Hwalk 0%nat Return) as (o & Ho & Hw0); [rewrite Hpool; reflexivity |].
  simpl in Ho. inversion Ho; subst o.
  destruct (main_walk _ _ Hw0) as (ch & t0 & t1 & ts & rs & t2 & t3 & Hts & Hrs & Hrun).
  destruct (main_run_facts args ch t0 t1 ts rs t2 t3 Hts)
    as (Hstarted & Hprinted & Hreceived & _).
  assert (Hspawned : spawned (log s) = map (fun url => fetch url ch) args).
  { rewrite (spawned_main _ Hlog), Hrun. exact Hstarted. }
  assert (Hsize : length (pool s) = S (length args)).
  { rewrite Hlen, Hspawned, length_map. reflexivity. }
  assert (Hdel : deliveries (log s) = map (fun r => (0%nat, value r)) rs).
  { rewrite (deliveries_main _ Hlog), Hrun, Hreceived, map_map. reflexivity. }
  exists ch, t0, t1, ts, rs, t2, t3.
  constructor; try assumption.
  - rewrite <- Hsize. exact Hids.
  - intros j url Hj.
    assert (Hin : (S j < length (pool s))%nat).
    { rewrite Hsize. apply lookup_lt_Some in Hj. lia. }
    destruct (lookup_lt_is_Some_2 _ _ Hin) as (p & Hp).
    destruct (Hwalk _ _ Hp) as (o & Ho' & Hw).
    simpl in Ho'. rewrite Hspawned, list_lookup_fmap, Hj in Ho'. simpl in Ho'.
    inversion Ho'; subst o.
    rewrite Hpool in Hp. simpl in Hp.
    destruct (Forall2_lookup_r _ _ _ _ _ Hrest Hp) as (n & Hn & Hsender).
    pose proof (sum_list_zero _ _ _ Hzero Hn) as ->.
    destruct (sender_walk _ _ _ _ _ (fetch_sender url ch) Hw) as (m & Hm' & Hcount & _).
    pose proof (sender_count_unique _ _ _ Hsender _ _ Hm') as <-.
    apply (fetch_walk_complete url ch _ p); [exact Hw |].
    intros Hnil. rewrite Hnil in Hcount. simpl in Hcount. lia.
  - rewrite Hcomm, Hdel, map_map. reflexivity.
  - rewrite Hout, (prints_main _ Hlog), Hrun. exact Hprinted.
Qed.

Lemma fetch_run_sent url ch l : fetch_run url ch l -> exists v, sent_values l = [(ch, v)].
Proof. intros []; eexists; reflexivity. Qed.

Lemma count_occ_seq a n x :
  count_occ Nat.eq_dec (seq a n) x = if decide (a <= x < a + n)%nat then 1%nat else 0%nat.
Proof.
  destruct (decide (a <= x < a + n)%nat) as [Hin | Hout].
  - apply (proj1 (NoDup_count_occ' Nat.eq_dec (seq a n))); [apply seq_NoDup |].
    apply in_seq. exact Hin.
  - apply count_occ_not_In. intros Hin. apply in_seq in Hin. contradiction.
Qed.

(** In a settled process every goroutine other than [main] has handed
    over exactly one value, and nobody else any. *)
Lemma settled_sent args s ch t0 t1 ts rs t2 t3 :
  settled args s ch t0 t1 ts rs t2 t3 ->
  forall j, length (sent_values (proj j (log s)))
            = if decide (1 <= j < 1 + length args)%nat then 1%nat else 0%nat.
Proof.
  intros H j.
  destruct (decide (1 <= j < 1 + length args)%nat) as [Hin | Hout].
  - destruct j as [|j]; [lia |].
    destruct (lookup_lt_is_Some_2 args j) as (url & Hurl); [lia |].
    destruct (fetch_run_sent _ _ _ (set_fetch _ _ _ _ _ _ _ _ _ H j url Hurl)) as (v & ->).
    reflexivity.
  - destruct j as [|j].
    + rewrite (set_main _ _ _ _ _ _ _ _ _ H).
      destruct (main_run_facts args ch t0 t1 ts rs t2 t3 (set_ts _ _ _ _ _ _ _ _ _ H))
        as (_ & _ & _ & ->).
      reflexivity.
    + rewrite (proj_outside (S j) (pool s) (log s)); [reflexivity | |].
      * rewrite (set_pool _ _ _ _ _ _ _ _ _ H). exact (set_ids _ _ _ _ _ _ _ _ _ H).
      * rewrite (set_pool _ _ _ _ _ _ _ _ _ H). lia.
Qed.

Lemma spawn_run_actions ch urls : forall ts,
  Forall (fun e => main_action (snd e) = true) (spawn_run ch ts urls).
Proof.
  induction urls as [|url rest IH]; intros [|t ts]; simpl; try constructor.
  - reflexivity.
  - apply IH.
Qed.

Lemma collect_run_actions ch rs :
  Forall (fun e => main_action (snd e) = true) (collect_run ch rs).
Proof.
  induction rs as [|r rs IH]; simpl; [constructor |].
  constructor; [reflexivity |]. constructor; [reflexivity | exact IH].
Qed.

(** [main] itself never calls the transport and never sends. *)
Lemma main_run_actions args ch t0 t1 ts rs t2 t3 :
  Forall (fun e => main_action (snd e) = true) (main_run args ch t0 t1 ts rs t2 t3).
Proof.
  unfold main_run.
  constructor; [reflexivity |]. constructor; [reflexivity |].
  apply Forall_app. split; [apply spawn_run_actions |].
  apply Forall_app. split; [apply collect_run_actions |].
  constructor; [reflexivity |]. constructor; [reflexivity | constructor].
Qed.

(** In a settled process an entry of the log that is not a step of [main]
    belongs to the complete run of [fetch] for one of the arguments. *)
Lemma settled_entry args s ch t0 t1 ts rs t2 t3 t j a :
  settled args s ch t0 t1 ts rs t2 t3 ->
  In (t, j, a) (log s) ->
  main_action a = false ->
  exists i url, j = S i /\ args !! i = Some url /\
                fetch_run url ch (proj j (log s)) /\ In (t, a) (proj j (log s)).
Proof.
  intros H Hin Ha.
  pose proof (In_proj _ _ _ _ Hin) as Hproj.
  destruct j as [|i].
  - rewrite (set_main _ _ _ _ _ _ _ _ _ H) in Hproj.
    pose proof (main_run_actions args ch t0 t1 ts rs t2 t3) as Hall.
    rewrite List.Forall_forall in Hall. specialize (Hall _ Hproj). simpl in Hall. congruence.
  - pose proof (set_ids _ _ _ _ _ _ _ _ _ H) as Hids.
    rewrite List.Forall_forall in Hids. specialize (Hids _ Hin). simpl in Hids.
    destruct (lookup_lt_is_Some_2 args i) as (url & Hurl); [lia |].
    exists i, url. split; [reflexivity |]. split; [exact Hurl |].
    split; [exact (set_fetch _ _ _ _ _ _ _ _ _ H i url Hurl) | exact Hproj].
Qed.

(** In a settled process a value that was handed over was received by
    [main] and printed on a line of its own. *)
Lemma settled_result args s ch t0 t1 ts rs t2 t3 j v :
  settled args s ch t0 t1 ts rs t2 t3 ->
  In (j, v) (comms (log s)) ->
  In (0%nat, v) (deliveries (log s)) /\ In (v ++ nl)%string (stdout s).
Proof.
  intros H Hin.
  assert (Hv : In v (map value rs)).
  { rewrite <- (set_comms _ _ _ _ _ _ _ _ _ H).
    apply in_map_iff. exists (j, v). split; [reflexivity | exact Hin]. }
  apply in_map_iff in Hv as (r & <- & Hr).
  split.
  - rewrite (set_deliveries _ _ _ _ _ _ _ _ _ H).
    apply in_map_iff. exists r. split; [reflexivity | exact Hr].
  - rewrite (set_stdout _ _ _ _ _ _ _ _ _ H).
    apply in_or_app. left. apply in_map_iff. exists r. split; [reflexivity | exact Hr].
Qed.

(** The value a goroutine sent is among the hand-overs. *)
Lemma sent_in_comms j ch v (l : list Entry) :
  sent_values (proj j l) = [(ch, v)] ->
  filter (fun x : nat * string => fst x = j) (comms l) = [(j, v)] /\ In (j, v) (comms l).
Proof.
  intros Hsent.
  assert (Hfilter : filter (fun x : nat * string => fst x = j) (comms l) = [(j, v)])
    by (rewrite comms_of_sender, Hsent; reflexivity).
  split; [exact Hfilter |].
  apply list_elem_of_In.
  assert (Hel : (j, v) ∈ filter (fun x : nat * string => fst x = j) (comms l))
    by (rewrite Hfilter; apply list_elem_of_here).
  apply list_elem_of_filter in Hel. tauto.
Qed.

(** In a settled process the output is one line per hand-over, in the
    order of the hand-overs, and then the summary. *)
Lemma settled_stdout args s ch t0 t1 ts rs t2 t3 :
  settled args s ch t0 t1 ts rs t2 t3 ->
  stdout s = map (fun x : nat * string => (snd x ++ nl)%string) (comms (log s))
             ++ [summary (Sub t2 t0)].
Proof.
  intros H. rewrite (set_stdout _ _ _ _ _ _ _ _ _ H). f_equal.
  rewrite <- (map_map snd (fun v : string => (v ++ nl)%string) (comms (log s))).
  rewrite (set_comms _ _ _ _ _ _ _ _ _ H), map_map. reflexivity.
Qed.

(** Time along the collecting loop: a value is printed after it is
    received, and before whatever follows the loop. *)
Lemma collect_run_sorted ch rs (rest : list (Time * Action)) :
  StronglySorted Z.le (map fst (collect_run ch rs ++ rest)) ->
  Forall (fun r => at_recv r <= at_print r /\ Forall (Z.le (at_print r)) (map fst rest)) rs
  /\ StronglySorted Z.le (map fst rest).
Proof.
  induction rs as [|r rs IH]; simpl; intros H.
  - split; [constructor | exact H].
  - inversion H as [|? ? H1 Hall1]; subst.
    inversion H1 as [|? ? H2 Hall2]; subst.
    destruct (IH H2) as [Hrs Hrest]. split; [| exact Hrest].
    constructor; [| exact Hrs].
    split; [inversion Hall1; assumption |].
    rewrite map_app in Hall2. apply Forall_app in Hall2. tauto.
Qed.

(** Every run of [main] without arguments is a beginning of: read the
    clock, make the channel, read the clock again, print the summary. *)
Lemma main_nil_walk l q :
  walk (main []) l q ->
  (q <> Return /\
   (l = [] \/ (exists t0, l = [(t0, ANow t0)])
    \/ (exists t0 t1 ch, l = [(t0, ANow t0); (t1, AMake ch)])
    \/ (exists t0 t1 ch t2,
           l = [(t0, ANow t0); (t1, AMake ch); (t2, ASince (Sub t2 t0))])))
  \/ (q = Return /\
      exists t0 t1 ch t2 t3,
        l = [(t0, ANow t0); (t1, AMake ch); (t2, ASince (Sub t2 t0));
             (t3, APrint (summary (Sub t2 t0)))]).
Proof.
  unfold main. simpl. intros Hw.
  walk_next Hw; [left; split; [discriminate | tauto] |].
  walk_next Hw0; [left; split; [discriminate | eauto] |].
  walk_next Hw; [left; split; [discriminate | eauto 10] |].
  walk_next Hw0; [left; split; [discriminate | eauto 10] |].
  walk_next Hw.
  right. split; [reflexivity |]. eauto 10.
Qed.

(** A log in which only [main] acts is the run of [main]. *)
Lemma log_of_main (l : list Entry) :
  Forall (fun e : Entry => (snd (fst e) < 1)%nat) l ->
  l = map (fun e => (fst e, 0%nat, snd e)) (proj 0 l).
Proof.
  induction 1 as [|[[t j] a] l Hj _ IH]; [reflexivity |].
  simpl in Hj. assert (j = 0%nat) as -> by lia.
  unfold proj in *. simpl. f_equal. exact IH.
Qed.

(** *** Every order of completion can happen *)

(** Single steps on a state that is written out. *)
Lemma steps_of_main c n m rest o l r a m' :
  m <> Return ->
  fire c n m r = Some (a, m') ->
  is_comm a = false ->
  (forall code, a <> AExit code) ->
  step {| clock := c; chans := n; pool := m :: rest; stdout := o; log := l;
          status := None |} (Run 0 0 r)
  = Some {| clock := c;
            chans := match a with AMake _ => S n | _ => n end;
            pool := (m' :: rest) ++ started a;
            stdout := o ++ match a with APrint x => [x] | _ => [] end;
            log := l ++ [(c, 0%nat, a)];
            status := None |}.
Proof.
  intros Hm Hf Hc Hexit. unfold step, finished. simpl.
  destruct m; try contradiction; rewrite Z.add_0_r, Hf, Hc;
    (destruct a; try reflexivity; exfalso; eapply Hexit; reflexivity).
Qed.

Lemma steps_of_sender c n m tasks o l j p r a p' :
  m <> Return ->
  tasks !! j = Some p ->
  fire c n p r = Some (a, p') ->
  sender_action a = true ->
  is_comm a = false ->
  step {| clock := c; chans := n; pool := m :: tasks; stdout := o; log := l;
          status := None |} (Run (S j) 0 r)
  = Some {| clock := c; chans := n; pool := m :: <[j := p']> tasks;
            stdout := o; log := l ++ [(c, S j, a)]; status := None |}.
Proof.
  intros Hm Hp Hf Ha Hc. unfold step, finished. simpl.
  destruct m; try contradiction; rewrite Z.add_0_r, Hp, Hf, Hc;
    (destruct a; simpl in Ha; try discriminate; rewrite ?app_nil_r; reflexivity).
Qed.

Lemma steps_of_handover c n ch k' tasks o l j v k :
  tasks !! j = Some (ChanSend ch v k) ->
  step {| clock := c; chans := n; pool := ChanRecv ch k' :: tasks; stdout := o;
          log := l; status := None |} (Sync (S j) 0 0)
  = Some {| clock := c; chans := n; pool := k' v :: <[j := k]> tasks; stdout := o;
            log := l ++ [(c, S j, ASend ch v); (c, 0%nat, ARecv ch v)];
            status := None |}.
Proof.
  intros Hp. unfold step, finished. simpl.
  rewrite Z.add_0_r, Hp, Nat.eqb_refl. reflexivity.
Qed.

Lemma exec_cons s c cs :
  exec s (c :: cs) = match step s c with Some s' => exec s' cs | None => None end.
Proof. reflexivity. Qed.

(** The loop of [go] statements, run without interruption. *)
Lemma spawn_phase urls : forall s k rest cs,
  status s = None ->
  pool s = spawn_all urls 0%nat k :: rest ->
  exists s',
    exec s (replicate (length urls) (Run 0 0 RNone) ++ cs) = exec s' cs /\
    status s' = None /\
    pool s' = k :: rest ++ map (fun url => fetch url 0%nat) urls /\
    comms (log s') = comms (log s).
Proof.
  induction urls as [|url urls IH]; intros s k rest cs Hst Hpool.
  - exists s. simpl. rewrite app_nil_r. auto.
  - destruct s as [c n ps o l st]. simpl in Hst, Hpool. subst st ps.
    simpl replicate. simpl app. rewrite exec_cons.
    simpl spawn_all.
    rewrite (steps_of_main c n _ rest o l RNone (AGo (fetch url 0%nat))
               (spawn_all urls 0%nat k));
      [| discriminate | reflexivity | reflexivity | discriminate].
    match goal with
    | |- exists s', exec ?st _ = _ /\ _ =>
        destruct (IH st k (rest ++ [fetch url 0%nat]) cs eq_refl eq_refl)
          as (s' & He & Hst' & Hpool' & Hcomms)
    end.
    exists s'. split; [exact He |]. split; [exact Hst' |]. split.
    + rewrite Hpool'. simpl. rewrite <- app_assoc. reflexivity.
    + rewrite Hcomms. simpl. rewrite comms_snoc. simpl. apply app_nil_r.
Qed.

(** The goroutines named in [order] complete one after the other. *)
Lemma collect_phase e order : forall s rounds k tasks cs,
  status s = None ->
  pool s = collect_all rounds 0%nat k :: tasks ->
  length rounds = length order ->
  List.NoDup order ->
  (forall j, In j order -> exists i url, j = S i /\ tasks !! i = Some (fetch url 0%nat)) ->
  exists s' tasks',
    exec s (flat_map (fun j => [Run j 0 RNone; Run j 0 (RGet (inr e)); Sync j 0 0;
                                Run 0 0 RNone]) order ++ cs) = exec s' cs /\
    status s' = None /\
    pool s' = k :: tasks' /\
    comms (log s') = comms (log s) ++ map (fun j => (j, Error e)) order.
Proof.
  induction order as [|j order IH]; intros s rounds k tasks cs Hst Hpool Hlen Hnodup Htasks.
  - destruct rounds; [| discriminate]. exists s, tasks. simpl. rewrite app_nil_r. auto.
  - destruct rounds as [|round rounds]; [discriminate |].
    destruct (Htasks j (or_introl eq_refl)) as (i & url & -> & Hi).
    destruct s as [c n ps o l st]. simpl in Hst, Hpool. subst st ps.
    simpl flat_map. simpl app. simpl collect_all.
    rewrite exec_cons.
    erewrite (steps_of_sender c n _ tasks o l i _ RNone (ANow c));
      [| discriminate | exact Hi | reflexivity | reflexivity | reflexivity].
    rewrite exec_cons.
    erewrite (steps_of_sender c n _ _ o _ i _ (RGet (inr e)) (AGet url (inr e))
                (ChanSend 0%nat (Sprint [VError e]) Return));
      [| discriminate | apply list_lookup_insert_eq; eapply lookup_lt_Some; exact Hi
       | reflexivity | reflexivity | reflexivity].
    rewrite exec_cons.
    erewrite (steps_of_handover c n 0%nat _ _ o _ i (Sprint [VError e]) Return);
      [| apply list_lookup_insert_eq; rewrite length_insert;
         eapply lookup_lt_Some; exact Hi].
    rewrite exec_cons.
    erewrite (steps_of_main c n _ _ o _ RNone
                (APrint (Sprintln [VString (Sprint [VError e])]))
                (collect_all rounds 0%nat k));
      [| discriminate | reflexivity | reflexivity | discriminate].
    cbn [started app]. rewrite app_nil_r.
    inversion Hnodup as [|? ? Hnotin Hnodup']; subst.
    match goal with
    | |- exists s' tasks', exec ?st _ = _ /\ _ =>
        edestruct (IH st rounds k _ cs eq_refl eq_refl)
          as (s' & tasks' & He & Hst' & Hpool' & Hcomms)
    end.
    + simpl in Hlen. lia.
    + exact Hnodup'.
    + intros j' Hj'. destruct (Htasks j' (or_intror Hj')) as (i' & url' & -> & Hi').
      exists i', url'. split; [reflexivity |].
      assert (i <> i') by (intros ->; contradiction).
      rewrite !list_lookup_insert_ne by assumption. exact Hi'.
    + exists s', tasks'. split; [exact He |]. split; [exact Hst' |].
      split; [exact Hpool' |].
      rewrite Hcomms. simpl log. rewrite !comms_app.
      change (comms [(c, S i, ANow c)]) with (@nil (nat * string)).
      change (comms [(c, S i, AGet url (inr e))]) with (@nil (nat * string)).
      change (comms [(c, S i, ASend 0%nat (Sprint [VError e]));
                     (c, 0%nat, ARecv 0%nat (Sprint [VError e]))])
        with [(S i, Sprint [VError e])].
      change (comms [(c, 0%nat, APrint (Sprintln [VString (Sprint [VError e])]))])
        with (@nil (nat * string)).
      rewrite !app_nil_r, <- app_assoc, Sprint_error. reflexivity.
Qed.

(** Whatever order of the goroutines [1..N] is asked for, there is a
    schedule in which they complete in that order. *)
Lemma any_completion_order args e order :
  Permutation order (seq 1 (length args)) ->
  exists s,
    exec (boot (main args)) (completion_schedule (length args) e order) = Some s /\
    finished s = true /\
    comms (log s) = map (fun j => (j, Error e)) order.
Proof.
  intros Hperm.
  unfold completion_schedule, boot, main.
  change (replicate (2 + length args) (Run 0 0 RNone))
    with (Run 0 0 RNone :: Run 0 0 RNone :: replicate (length args) (Run 0 0 RNone)).
  cbn [app].
  rewrite exec_cons.
  erewrite (steps_of_main 0 0%nat (TimeNow _) [] [] [] RNone (ANow 0));
    [| discriminate | reflexivity | reflexivity | discriminate].
  cbn [started app]. cbv beta.
  rewrite exec_cons.
  erewrite (steps_of_main 0 0%nat (MakeChan _) _ _ _ RNone (AMake 0%nat));
    [| discriminate | reflexivity | reflexivity | discriminate].
  cbn [started app]. cbv beta.
  match goal with
  | |- exists s, exec ?st (replicate _ _ ++ ?cs) = _ /\ _ =>
      destruct (spawn_phase args st _ [] cs eq_refl eq_refl)
        as (s1 & -> & Hst1 & Hpool1 & Hcomms1)
  end.
  simpl app in Hpool1. simpl in Hcomms1.
  destruct (collect_phase e order s1 args _ _
              [Run 0 0 RNone; Run 0 0 RNone] Hst1 Hpool1)
    as (s2 & tasks2 & -> & Hst2 & Hpool2 & Hcomms2).
  - rewrite (Permutation_length Hperm), length_seq. reflexivity.
  - apply (Permutation_NoDup (Permutation_sym Hperm)). apply seq_NoDup.
  - intros j Hj.
    apply (Permutation_in _ Hperm) in Hj. apply in_seq in Hj.
    destruct j as [|i]; [lia |].
    destruct (lookup_lt_is_Some_2 args i) as (url & Hurl); [lia |].
    exists i, url. split; [reflexivity |].
    rewrite list_lookup_fmap, Hurl. reflexivity.
  - destruct s2 as [c n ps o l st]. simpl in Hst2, Hpool2, Hcomms2. subst st ps.
    rewrite exec_cons.
    erewrite (steps_of_main c n (TimeSince _ _) _ o l RNone (ASince _));
      [| discriminate | reflexivity | reflexivity | discriminate].
    cbn [started app]. cbv beta.
    rewrite exec_cons.
    erewrite (steps_of_main c n (Stdout _ _) _ _ _ RNone (APrint _));
      [| discriminate | reflexivity | reflexivity | discriminate].
    eexists. split; [reflexivity |]. split; [reflexivity |].
    simpl log. rewrite !comms_snoc. simpl. rewrite !app_nil_r, Hcomms2, Hcomms1.
    reflexivity.
Qed.

(** The sample schedule runs to the end; the refused target is collected
    and printed first. *)
Lemma sample_run :
  exists s,
    exec (boot (main sample_args)) sample_schedule = Some s /\
    finished s = true /\
    comms (log s) = [(2%nat, "connection refused"%string);
                     (1%nat, "0.14s    6852 http://a.example"%string)] /\
    stdout s = [("connection refused" ++ nl)%string;
                ("0.14s    6852 http://a.example" ++ nl)%string;
                ("0.15s elapsed" ++ nl)%string].
Proof.
  assert (H : option_map (fun s => (finished s, comms (log s), stdout s))
                (exec (boot (main sample_args)) sample_schedule)
              = Some (true,
                      [(2%nat, "connection refused"%string);
                       (1%nat, "0.14s    6852 http://a.example"%string)],
                      [("connection refused" ++ nl)%string;
                       ("0.14s    6852 http://a.example" ++ nl)%string;
                       ("0.15s elapsed" ++ nl)%string]))
    by (vm_compute; reflexivity).
  destruct (exec (boot (main sample_args)) sample_schedule) as [s|]; [| discriminate].
  simpl in H. injection H as H1 H2 H3.
  exists s. repeat split; assumption.
Qed.

End FetchallFacts.

(** * The dispatcher, as specified *)

Module FetchallSpec.
Import GoFmt Lang Sched Fetchall GoFmtFacts LangFacts SchedFacts FetchallFacts.

(** C1.  For every list of [N] targets the process stops, whatever the
    schedule (at most [9 * N + 4] steps) and never with every goroutine
    waiting; once [main] has returned there are [N] fetch goroutines, each
    has handed over exactly one value, the senders are the goroutines
    [1..N] each once, and [main] has received exactly these [N] values, in
    the order they were handed over: none dropped, none twice. *)
Theorem one_result_per_target (args : list string) (cs : list Choice) (s : State) :
  exec (boot (main args)) cs = Some s ->
  (length cs <= 9 * length args + 4)%nat /\
  (finished s = false -> exists c s', step s c = Some s') /\
  (finished s = true ->
     length (pool s) = S (length args) /\
     (forall j, (1 <= j <= length args)%nat ->
        exists v, filter (fun x : nat * string => fst x = j) (comms (log s)) = [(j, v)]) /\
     Permutation (map fst (comms (log s))) (seq 1 (length args)) /\
     deliveries (log s) = map (fun x => (0%nat, snd x)) (comms (log s)) /\
     length (deliveries (log s)) = length args).
Proof.
  intros He. split; [| split].
  - exact (exec_bounded _ _ _ _ (main_cost args) He).
  - apply balanced_progress. exact (balanced_exec _ _ _ (main_opener args) He).
  - intros Hfin.
    destruct (final_state _ _ _ He Hfin) as (ch & t0 & t1 & ts & rs & t2 & t3 & H).
    split; [exact (set_pool _ _ _ _ _ _ _ _ _ H) |].
    split; [| split; [| split]].
    + intros j Hj. rewrite comms_of_sender.
      pose proof (settled_sent _ _ _ _ _ _ _ _ _ H j) as Hlen.
      destruct (decide (1 <= j < 1 + length args)%nat); [| lia].
      destruct (sent_values (proj j (log s))) as [|[c v] [|x l]]; try discriminate.
      exists v. reflexivity.
    + apply (Permutation_count_occ Nat.eq_dec). intros j.
      rewrite senders_count, count_occ_seq.
      exact (settled_sent _ _ _ _ _ _ _ _ _ H j).
    + rewrite (set_deliveries _ _ _ _ _ _ _ _ _ H).
      rewrite <- (map_map snd (fun v : string => (0%nat, v)) (comms (log s))).
      rewrite (set_comms _ _ _ _ _ _ _ _ _ H), map_map. reflexivity.
    + rewrite (set_deliveries _ _ _ _ _ _ _ _ _ H), length_map.
      exact (set_rs _ _ _ _ _ _ _ _ _ H).
Qed.

(** The sample run collects its two results. *)
Lemma one_result_per_target_witness :
  exists s,
    exec (boot (main sample_args)) sample_schedule = Some s /\
    finished s = true /\
    Permutation (map fst (comms (log s))) (seq 1 2) /\
    length (deliveries (log s)) = 2%nat.
Proof.
  destruct sample_run as (s & He & Hdone & _).
  exists s. split; [exact He |]. split; [exact Hdone |].
  destruct (one_result_per_target sample_args sample_schedule s He) as (_ & _ & Hfin).
  destruct (Hfin Hdone) as (_ & _ & Hperm & _ & Hlen).
  split; [exact Hperm | exact Hlen].
Defined.

(** C2.  Every run of [fetch] is at most six steps long and can always go
    on until [fetch] returns; nothing is sent before the last step; and a
    run that has returned has sent exactly one value, which is the success
    line when no transport step failed and a failure text when one did,
    never both. *)
Theorem fetch_one_outcome (url : string) (ch : chan) (l : list (Time * Action)) (q : Prog) :
  walk (fetch url ch) l q ->
  (length l <= 6)%nat /\
  (q <> Return ->
     sent_values l = [] /\
     forall now fresh, exists r a q', fire now fresh q r = Some (a, q')) /\
  (q = Return ->
     exists v, sent_values l = [(ch, v)] /\
       ((transport_failed l = false /\
         exists d n, v = Sprintf "%.2fs %7d %s" [VFloat (Seconds d); VInt n; VString url])
        \/
        (transport_failed l = true /\
         exists e, v = Sprint [VError e]
                   \/ v = Sprint [VString "while reading %s: %v"; VString url; VError e]))).
Proof.
  intros Hw. split; [| split].
  - exact (cost_walk _ _ _ Hw _ (fetch_cost url ch)).
  - intros Hq. split.
    + destruct (sent_values l) as [|x rest] eqn:Hsent; [reflexivity |].
      destruct (fetch_walk_complete url ch l q Hw) as [_ Hret];
        [rewrite Hsent; discriminate | contradiction].
    + intros now fresh. apply fire_total. exact Hq.
  - intros ->.
    destruct (sender_walk _ _ _ _ _ (fetch_sender url ch) Hw) as (m & Hm & Hcount & _).
    inversion Hm; subst m.
    destruct (fetch_walk_complete url ch l Return Hw) as [Hrun _].
    { intros Hnil. rewrite Hnil in Hcount. discriminate. }
    destruct Hrun as [t0 t1 t2 err | t0 t1 t2 t3 t4 resp n err | t0 t1 t2 t3 t4 t5 resp n].
    + eexists. split; [reflexivity |]. right. split; [reflexivity |]. eauto.
    + eexists. split; [reflexivity |]. right. split; [reflexivity |]. eauto.
    + eexists. split; [reflexivity |]. left. split; [reflexivity |]. eauto.
Qed.

(** A fetch whose transport call is refused after five milliseconds. *)
Lemma fetch_one_outcome_witness :
  walk (fetch "http://b.example" 0%nat)
       [(0, ANow 0); (5000000, AGet "http://b.example" (inr (mkError "connection refused")));
        (5000000, ASend 0%nat "connection refused")] Return
  /\ exists v, sent_values
                 [(0, ANow 0);
                  (5000000, AGet "http://b.example" (inr (mkError "connection refused")));
                  (5000000, ASend 0%nat "connection refused")] = [(0%nat, v)].
Proof.
  assert (Hw : walk (fetch "http://b.example" 0%nat)
       [(0, ANow 0); (5000000, AGet "http://b.example" (inr (mkError "connection refused")));
        (5000000, ASend 0%nat "connection refused")] Return).
  { eapply (walk_step _ 0 0%nat RNone); [reflexivity |].
    eapply (walk_step _ 5000000 0%nat (RGet (inr (mkError "connection refused"))));
      [reflexivity |].
    eapply (walk_step _ 5000000 0%nat RNone); [reflexivity |].
    apply walk_done. }
  split; [exact Hw |].
  destruct (fetch_one_outcome _ _ _ _ Hw) as (_ & _ & Hret).
  destruct (Hret eq_refl) as (v & Hv & _).
  exists v. exact Hv.
Defined.

(** C3, as stated, fails.  The target [http://b.example] is refused once
    after 5 ms and once after 7 s: both runs send the same text,
    [connection refused], so no elapsed time can be read off the failure
    result. *)
Lemma failure_result_lacks_elapsed : ~ failure_carries_elapsed.
Proof.
  intros (elapsed_of & H).
  pose (e := mkError "connection refused").
  assert (Hrun : forall t1,
             walk (fetch "http://b.example" 0%nat)
               [(0, ANow 0); (t1, AGet "http://b.example" (inr e));
                (t1, ASend 0%nat "connection refused")] Return).
  { intros t1.
    eapply (walk_step _ 0 0%nat RNone); [reflexivity |].
    eapply (walk_step _ t1 0%nat (RGet (inr e))); [reflexivity |].
    eapply (walk_step _ t1 0%nat RNone); [reflexivity |].
    apply walk_done. }
  pose proof (H _ _ _ _ _ _ _ (Hrun 5000000)) as H5.
  pose proof (H _ _ _ _ _ _ _ (Hrun 7000000000)) as H7.
  rewrite H5 in H7. vm_compute in H7. discriminate.
Qed.

(** C3, amended.  On every run of [fetch] that met a transport failure no
    elapsed time is measured, and the one value sent carries the error
    description: after a failed transport call it is exactly the text of
    the error, after a failed body read it holds the target and, at its
    end, the text of the error. *)
Theorem failure_result_carries_error (url : string) (ch : chan) (l : list (Time * Action)) :
  walk (fetch url ch) l Return ->
  transport_failed l = true ->
  (forall t d, ~ In (t, ASince d) l) /\
  ((exists t e, In (t, AGet url (inr e)) l /\ sent_values l = [(ch, Error e)])
   \/
   (exists t body n e before between,
       In (t, ACopy body n (Some e)) l /\
       sent_values l = [(ch, (before ++ url ++ between ++ Error e)%string)])).
Proof.
  intros Hw Hfailed.
  destruct (sender_walk _ _ _ _ _ (fetch_sender url ch) Hw) as (m & Hm & Hcount & _).
  inversion Hm; subst m.
  destruct (fetch_walk_complete url ch l Return Hw) as [Hrun _].
  { intros Hnil. rewrite Hnil in Hcount. discriminate. }
  destruct Hrun as [t0 t1 t2 err | t0 t1 t2 t3 t4 resp n err | t0 t1 t2 t3 t4 t5 resp n].
  - split.
    + intros t d Hin. simpl in Hin.
      repeat (destruct Hin as [Hin | Hin]; [discriminate |]). contradiction.
    + left. exists t1, err. split; [simpl; tauto |].
      rewrite Sprint_error. reflexivity.
  - split.
    + intros t d Hin. simpl in Hin.
      repeat (destruct Hin as [Hin | Hin]; [discriminate |]). contradiction.
    + right. exists t2, (Body resp), n, err, "while reading %s: %v"%string, EmptyString.
      split; [simpl; tauto |].
      rewrite Sprint_string_string_error. reflexivity.
  - discriminate.
Qed.

(** A body read that breaks off after 100 bytes. *)
Lemma failure_result_carries_error_witness :
  exists l,
    walk (fetch "http://a.example" 0%nat) l Return /\
    transport_failed l = true /\
    forall t d, ~ In (t, ASince d) l.
Proof.
  pose (e := mkError "unexpected EOF").
  pose (l := [(0, ANow 0); (20000000, AGet "http://a.example" (inl (mkResponse 7%nat)));
              (30000000, ACopy 7%nat 100 (Some e)); (30000000, AClose 7%nat);
              (30000000,
               ASend 0%nat (Sprint [VString "while reading %s: %v";
                                    VString "http://a.example"; VError e]))]).
  assert (Hw : walk (fetch "http://a.example" 0%nat) l Return).
  { eapply (walk_step _ 0 0%nat RNone); [reflexivity |].
    eapply (walk_step _ 20000000 0%nat (RGet (inl (mkResponse 7%nat)))); [reflexivity |].
    eapply (walk_step _ 30000000 0%nat (RCopy 100 (Some e))); [reflexivity |].
    eapply (walk_step _ 30000000 0%nat RNone); [reflexivity |].
    eapply (walk_step _ 30000000 0%nat RNone); [reflexivity |].
    apply walk_done. }
  exists l. split; [exact Hw |]. split; [reflexivity |].
  exact (proj1 (failure_result_carries_error _ _ _ Hw eq_refl)).
Defined.

(** C4.  Whatever the transport answers, nobody calls [os.Exit] and the
    process never comes to a halt before [main] returns; and once [main]
    has returned it has collected as many results as there are targets,
    and for every transport call or body read that failed, the goroutine
    that met the failure has handed over exactly one value, which ends
    with the text of the error and was received and printed by [main]. *)
Theorem transport_failure_is_not_fatal (args : list string) (cs : list Choice) (s : State) :
  exec (boot (main args)) cs = Some s ->
  status s = None /\
  (finished s = false -> exists c s', step s c = Some s') /\
  (finished s = true ->
     length (deliveries (log s)) = length args /\
     forall t j a e,
       In (t, j, a) (log s) ->
       failure_of a = Some e ->
       exists before,
         filter (fun x : nat * string => fst x = j) (comms (log s))
           = [(j, (before ++ Error e)%string)] /\
         In (0%nat, (before ++ Error e)%string) (deliveries (log s)) /\
         In ((before ++ Error e) ++ nl)%string (stdout s)).
Proof.
  intros He.
  pose proof (balanced_exec _ _ _ (main_opener args) He) as Hbal.
  split; [exact (proj1 Hbal) |].
  split; [apply balanced_progress; exact Hbal |].
  intros Hfin.
  destruct (final_state _ _ _ He Hfin) as (ch & t0 & t1 & ts & rs & t2 & t3 & H).
  split.
  { rewrite (set_deliveries _ _ _ _ _ _ _ _ _ H), length_map.
    exact (set_rs _ _ _ _ _ _ _ _ _ H). }
  intros t j a e Hin Hfail.
  assert (Ha : main_action a = false).
  { destruct a; simpl in Hfail; try discriminate; reflexivity. }
  destruct (settled_entry _ _ _ _ _ _ _ _ _ _ _ _ H Hin Ha)
    as (i & url & -> & Hurl & Hrun & Hproj).
  assert (Hsent : exists before,
             sent_values (proj (S i) (log s)) = [(ch, (before ++ Error e)%string)]).
  { destruct Hrun as [u0 u1 u2 err | u0 u1 u2 u3 u4 resp n err | u0 u1 u2 u3 u4 u5 resp n];
      simpl in Hproj;
      repeat (destruct Hproj as [Hproj | Hproj];
              [inversion Hproj; subst; simpl in Hfail; try discriminate |]);
      try contradiction.
    - inversion Hfail; subst. exists EmptyString. rewrite Sprint_error. reflexivity.
    - inversion Hfail; subst.
      exists ("while reading %s: %v" ++ url)%string.
      rewrite Sprint_string_string_error, append_assoc. reflexivity. }
  destruct Hsent as (before & Hsent). exists before.
  destruct (sent_in_comms _ _ _ _ Hsent) as [Hfilter Hcomm].
  split; [exact Hfilter |].
  exact (settled_result _ _ _ _ _ _ _ _ _ _ _ H Hcomm).
Qed.

(** In the sample run the refused target does not stop the other. *)
Lemma transport_failure_is_not_fatal_witness :
  exists s,
    exec (boot (main sample_args)) sample_schedule = Some s /\
    status s = None /\
    length (deliveries (log s)) = 2%nat.
Proof.
  destruct sample_run as (s & He & Hdone & _).
  exists s. split; [exact He |].
  destruct (transport_failure_is_not_fatal sample_args sample_schedule s He)
    as (Hst & _ & Hfin).
  split; [exact Hst | exact (proj1 (Hfin Hdone))].
Defined.

(** C5.  Once [main] has returned, the output is one line per result, the
    value handed over and a newline, followed by exactly one summary line,
    the total elapsed seconds with two decimals and [s elapsed]; the value
    handed over for a target whose body was read is the elapsed seconds
    with two decimals and [s], the byte count padded on the left with
    spaces to seven columns, and the target, separated by single spaces.
    [%.2f] always ends in a point and two digits; the padded byte count is
    seven columns wide, or as wide as the count when that is longer. *)
Theorem output_line_format (args : list string) (cs : list Choice) (s : State) :
  exec (boot (main args)) cs = Some s ->
  finished s = true ->
  (exists d,
      stdout s = map (fun x : nat * string => (snd x ++ nl)%string) (comms (log s))
                 ++ [(fmt_fixed 2 (Seconds d) ++ "s elapsed" ++ nl)%string]) /\
  (forall t j body n,
      In (t, j, ACopy body n None) (log s) ->
      exists d url,
        args !! (j - 1)%nat = Some url /\
        filter (fun x : nat * string => fst x = j) (comms (log s))
        = [(j, (fmt_fixed 2 (Seconds d) ++ "s " ++ pad_left 7 (itoa n) ++ " " ++ url)%string)]) /\
  (forall x, exists whole d1 d2,
      fmt_fixed 2 x = (whole ++ "." ++ String d1 (String d2 ""))%string
      /\ is_digit d1 = true /\ is_digit d2 = true) /\
  (forall n,
      pad_left 7 (itoa n) = (spaces (7 - String.length (itoa n)) ++ itoa n)%string /\
      String.length (pad_left 7 (itoa n)) = Nat.max 7 (String.length (itoa n))).
Proof.
  intros He Hfin.
  destruct (final_state _ _ _ He Hfin) as (ch & t0 & t1 & ts & rs & t2 & t3 & H).
  split; [| split; [| split]].
  - exists (Sub t2 t0).
    rewrite (settled_stdout _ _ _ _ _ _ _ _ _ H). unfold summary.
    rewrite Sprintf_elapsed. reflexivity.
  - intros t j body n Hin.
    destruct (settled_entry _ _ _ _ _ _ _ _ _ _ _ _ H Hin eq_refl)
      as (i & url & -> & Hurl & Hrun & Hproj).
    assert (Hsent : exists d,
               sent_values (proj (S i) (log s))
               = [(ch, (fmt_fixed 2 (Seconds d) ++ "s " ++ pad_left 7 (itoa n)
                        ++ " " ++ url)%string)]).
    { destruct Hrun as [u0 u1 u2 err | u0 u1 u2 u3 u4 resp m err | u0 u1 u2 u3 u4 u5 resp m];
        simpl in Hproj;
        repeat (destruct Hproj as [Hproj | Hproj]; [try discriminate |]);
        try contradiction.
      inversion Hproj; subst.
      exists (Sub u4 u0). rewrite <- Sprintf_fetched. reflexivity. }
    destruct Hsent as (d & Hsent).
    exists d, url. split.
    + replace (S i - 1)%nat with i by lia. exact Hurl.
    + exact (proj1 (sent_in_comms _ _ _ _ Hsent)).
  - exact fmt_fixed_two_decimals.
  - intros n. split; [reflexivity | apply pad_left_length].
Qed.

(** The output of the sample run. *)
Lemma output_line_format_witness :
  exists s,
    exec (boot (main sample_args)) sample_schedule = Some s /\
    finished s = true /\
    stdout s = [("connection refused" ++ nl)%string;
                ("0.14s    6852 http://a.example" ++ nl)%string;
                ("0.15s elapsed" ++ nl)%string] /\
    exists d,
      stdout s = map (fun x : nat * string => (snd x ++ nl)%string) (comms (log s))
                 ++ [(fmt_fixed 2 (Seconds d) ++ "s elapsed" ++ nl)%string].
Proof.
  destruct sample_run as (s & He & Hdone & _ & Hout).
  exists s. split; [exact He |]. split; [exact Hdone |]. split; [exact Hout |].
  exact (proj1 (output_line_format sample_args sample_schedule s He Hdone)).
Defined.

(** C6.  Once [main] has returned, its run is: the first clock reading
    [t0], which is the first step of the whole process and no later than
    any other step; the channel; the [go] statements; for each of the [N]
    results a receive and then a print; the second clock reading [t2],
    taken after the last result was received and printed; and, last, the
    one summary line, which reports [t2 - t0] (saturated to the range of
    [Duration]).  These [N] receives are all the deliveries there are. *)
Theorem elapsed_reported_once_after_all_results
    (args : list string) (cs : list Choice) (s : State) :
  exec (boot (main args)) cs = Some s ->
  finished s = true ->
  exists ch t0 t1 ts rs t2 t3,
    proj 0 (log s) = main_run args ch t0 t1 ts rs t2 t3 /\
    length ts = length args /\
    length rs = length args /\
    deliveries (log s) = map (fun r => (0%nat, value r)) rs /\
    (exists rest, log s = (t0, 0%nat, ANow t0) :: rest) /\
    Forall (fun t => t0 <= t) (stamps (log s)) /\
    Forall (fun r => at_recv r <= at_print r /\ at_print r <= t2) rs /\
    t2 <= t3 /\
    stdout s = map (fun r => (value r ++ nl)%string) rs ++ [summary (Sub t2 t0)] /\
    Sub t2 t0 = Z.min maxDuration (t2 - t0).
Proof.
  intros He Hfin.
  destruct (final_state _ _ _ He Hfin) as (ch & t0 & t1 & ts & rs & t2 & t3 & H).
  pose proof (set_main _ _ _ _ _ _ _ _ _ H) as Hmain.
  pose proof (set_sorted _ _ _ _ _ _ _ _ _ H) as Hsorted.
  assert (Hhead : exists rest, log s = (t0, 0%nat, ANow t0) :: rest).
  { destruct (log_head _ _ _ He) as [(Hnil & _) | (t & a & rest & Hlog)].
    - rewrite Hnil in Hmain. discriminate.
    - rewrite Hlog in Hmain. unfold proj, main_run in Hmain. simpl in Hmain.
      inversion Hmain; subst. exists rest. exact Hlog. }
  assert (Hfrom : Forall (fun t => t0 <= t) (stamps (log s))).
  { destruct Hhead as (rest & Hlog). rewrite Hlog in Hsorted |- *. simpl in *.
    inversion Hsorted; subst. constructor; [lia | assumption]. }
  pose proof (proj_sorted 0 _ Hsorted) as Hrun. rewrite Hmain in Hrun.
  unfold main_run in Hrun. simpl in Hrun.
  inversion Hrun as [|? ? Hrun1 _]; subst.
  inversion Hrun1 as [|? ? Hrun2 _]; subst.
  rewrite map_app in Hrun2.
  assert (Htail : StronglySorted Z.le
            (map fst (collect_run ch rs
                        ++ [(t2, ASince (Sub t2 t0)); (t3, APrint (summary (Sub t2 t0)))]))).
  { clear - Hrun2. induction (map fst (spawn_run ch ts args)) as [|x l IH]; [exact Hrun2 |].
    simpl in Hrun2. inversion Hrun2; subst. apply IH. assumption. }
  destruct (collect_run_sorted _ _ _ Htail) as [Hrs Hlast].
  exists ch, t0, t1, ts, rs, t2, t3.
  split; [exact Hmain |].
  split; [exact (set_ts _ _ _ _ _ _ _ _ _ H) |].
  split; [exact (set_rs _ _ _ _ _ _ _ _ _ H) |].
  split; [exact (set_deliveries _ _ _ _ _ _ _ _ _ H) |].
  split; [exact Hhead |]. split; [exact Hfrom |].
  split.
  { eapply Forall_impl; [exact Hrs |]. simpl. intros r [H1 H2].
    split; [exact H1 |]. inversion H2; assumption. }
  split.
  { simpl in Hlast. inversion Hlast as [|? ? _ Hle]; subst. inversion Hle; assumption. }
  split; [exact (set_stdout _ _ _ _ _ _ _ _ _ H) |].
  assert (0 <= t2 - t0).
  { simpl in Hlast. rewrite (List.Forall_forall) in Hfrom.
    assert (Hin : In (t2, ASince (Sub t2 t0)) (proj 0 (log s))).
    { rewrite Hmain. unfold main_run. right. right.
      apply in_or_app. right. apply in_or_app. right. left. reflexivity. }
    pose proof (proj_stamps (fun t => t0 <= t) 0 (log s)) as Hp.
    rewrite !List.Forall_forall in Hp.
    specialize (Hp Hfrom t2 (in_map fst _ _ Hin)). simpl in Hp. lia. }
  unfold Sub, maxDuration, minDuration. lia.
Qed.

(** In the sample run the summary reports the 146.001 ms between the two
    clock readings of [main]. *)
Lemma elapsed_reported_once_after_all_results_witness :
  exists s,
    exec (boot (main sample_args)) sample_schedule = Some s /\
    finished s = true /\
    exists rs d,
      length rs = 2%nat /\
      stdout s = map (fun r => (value r ++ nl)%string) rs ++ [summary d].
Proof.
  destruct sample_run as (s & He & Hdone & _).
  exists s. split; [exact He |]. split; [exact Hdone |].
  destruct (elapsed_reported_once_after_all_results sample_args sample_schedule s He Hdone)
    as (ch & t0 & t1 & ts & rs & t2 & t3 & _ & _ & Hrs & _ & _ & _ & _ & _ & Hout & _).
  exists rs, (Sub t2 t0). split; [exact Hrs | exact Hout].
Defined.

(** C7.  Without targets the process takes at most four steps and never
    comes to a halt before [main] returns; no goroutine is started, nothing
    is handed over and nothing received; and once [main] has returned the
    log is: read the clock, make the channel, read the clock again, print
    the summary.  The elapsed time reported is what passed between the two
    readings, during which only the channel was made; when that is less
    than five milliseconds, the summary reads [0.00s elapsed]. *)
Theorem empty_target_list (cs : list Choice) (s : State) :
  exec (boot (main [])) cs = Some s ->
  (length cs <= 4)%nat /\
  length (pool s) = 1%nat /\
  spawned (log s) = [] /\
  comms (log s) = [] /\
  deliveries (log s) = [] /\
  (finished s = false -> exists c s', step s c = Some s') /\
  (finished s = true ->
     exists ch t0 t1 t2 t3,
       log s = [(t0, 0%nat, ANow t0); (t1, 0%nat, AMake ch);
                (t2, 0%nat, ASince (Sub t2 t0));
                (t3, 0%nat, APrint (summary (Sub t2 t0)))] /\
       0 <= t0 <= t1 /\ t1 <= t2 <= t3 /\
       stdout s = [summary (Sub t2 t0)] /\
       (t2 - t0 < 5000000 -> stdout s = [("0.00s elapsed" ++ nl)%string])).
Proof.
  intros He.
  pose proof (balanced_exec _ _ _ (main_opener []) He) as Hbal.
  destruct Hbal as (Hst & Honly & Hshape).
  destruct (consistent_exec _ _ _ He)
    as [(Hids & Hlen & Hwalk) Hout _ (Hsorted & Hbound & _)].
  assert (Hq : exists q, pool s !! 0%nat = Some q).
  { apply lookup_lt_is_Some_2. lia. }
  destruct Hq as (q & Hq).
  destruct (Hwalk _ _ Hq) as (o & Ho & Hw). simpl in Ho. inversion Ho; subst o.
  pose proof (main_nil_walk _ _ Hw) as Hcases.
  assert (Hnone : spawned (log s) = []).
  { rewrite (spawned_main _ Honly).
    destruct Hcases as [(_ & [-> | [(t0 & ->) | [(t0 & t1 & ch & ->)
                                                | (t0 & t1 & ch & t2 & ->)]]])
                       | (_ & t0 & t1 & ch & t2 & t3 & ->)]; reflexivity. }
  assert (Hone : length (pool s) = 1%nat) by (rewrite Hlen, Hnone; reflexivity).
  assert (Hlog : log s = map (fun e => (fst e, 0%nat, snd e)) (proj 0 (log s))).
  { apply log_of_main. rewrite <- Hone. exact Hids. }
  split; [exact (exec_bounded _ _ _ _ (main_cost []) He) |].
  split; [exact Hone |]. split; [exact Hnone |].
  split; [| split; [| split]].
  - rewrite Hlog.
    destruct Hcases as [(_ & [-> | [(t0 & ->) | [(t0 & t1 & ch & ->)
                                                | (t0 & t1 & ch & t2 & ->)]]])
                       | (_ & t0 & t1 & ch & t2 & t3 & ->)]; reflexivity.
  - rewrite Hlog.
    destruct Hcases as [(_ & [-> | [(t0 & ->) | [(t0 & t1 & ch & ->)
                                                | (t0 & t1 & ch & t2 & ->)]]])
                       | (_ & t0 & t1 & ch & t2 & t3 & ->)]; reflexivity.
  - apply balanced_progress. split; [exact Hst |]. split; assumption.
  - intros Hfin. unfold finished in Hfin. rewrite Hst in Hfin.
    destruct (pool s) as [|m rest] eqn:Hpool; [discriminate |].
    simpl in Hq. inversion Hq; subst m.
    destruct q; try discriminate.
    destruct Hcases as [(Hne & _) | (_ & t0 & t1 & ch & t2 & t3 & Hrun)];
      [contradiction |].
    rewrite Hrun in Hlog. simpl in Hlog.
    exists ch, t0, t1, t2, t3.
    split; [exact Hlog |].
    rewrite Hlog in Hsorted, Hbound. simpl in Hsorted, Hbound.
    assert (Htimes : 0 <= t0 <= t1 /\ t1 <= t2 <= t3).
    { inversion Hbound as [|? ? H0 _]; subst.
      inversion Hsorted as [|? ? Hs1 Ha1]; subst.
      inversion Hs1 as [|? ? Hs2 Ha2]; subst.
      inversion Hs2 as [|? ? _ Ha3]; subst.
      inversion Ha1; subst. inversion Ha2; subst. inversion Ha3; subst. lia. }
    split; [tauto |]. split; [tauto |].
    assert (Hprinted : stdout s = [summary (Sub t2 t0)])
      by (rewrite Hout, Hlog; reflexivity).
    split; [exact Hprinted |].
    intros Hshort. rewrite Hprinted. unfold summary.
    rewrite Sprintf_elapsed.
    replace (Sub t2 t0) with (t2 - t0)
      by (unfold Sub, maxDuration, minDuration; lia).
    rewrite Seconds_small by lia. reflexivity.
Qed.

(** Four steps without a delay: the output is [0.00s elapsed]. *)
Lemma empty_target_list_witness :
  exists s,
    exec (boot (main [])) [Run 0 0 RNone; Run 0 0 RNone; Run 0 0 RNone; Run 0 0 RNone]
      = Some s /\
    finished s = true /\
    length (pool s) = 1%nat /\
    deliveries (log s) = [] /\
    stdout s = [("0.00s elapsed" ++ nl)%string].
Proof.
  assert (H : option_map (fun s => (finished s, stdout s))
                (exec (boot (main []))
                   [Run 0 0 RNone; Run 0 0 RNone; Run 0 0 RNone; Run 0 0 RNone])
              = Some (true, [("0.00s elapsed" ++ nl)%string]))
    by (vm_compute; reflexivity).
  destruct (exec (boot (main []))
              [Run 0 0 RNone; Run 0 0 RNone; Run 0 0 RNone; Run 0 0 RNone])
    as [s|] eqn:He; [| discriminate].
  simpl in H. injection H as Hdone Hout.
  exists s. split; [reflexivity |]. split; [exact Hdone |].
  destruct (empty_target_list _ s He) as (_ & Hone & _ & _ & Hdel & _).
  split; [exact Hone |]. split; [exact Hdel | exact Hout].
Defined.

(** C8, as stated, fails.  The target [://no-scheme] is malformed, and the
    second step of [fetch] hands it to the transport all the same: there is
    no check of the target in [fetch]. *)
Lemma malformed_target_reaches_transport :
  ~ rejects_before_transport (fun url => url = "://no-scheme"%string).
Proof.
  intros H.
  pose (e := mkError "missing protocol scheme").
  apply (H "://no-scheme"%string 0%nat
           [(0, ANow 0); (0, AGet "://no-scheme" (inr e))]
           (ChanSend 0%nat (Sprint [VError e]) Return) 0 (inr e) eq_refl).
  - eapply (walk_step _ 0 0%nat RNone); [reflexivity |].
    eapply (walk_step _ 0 0%nat (RGet (inr e))); [reflexivity |].
    apply walk_done.
  - right. left. reflexivity.
Qed.

(** C8, amended.  For every target, malformed or not, a run of [fetch]
    that returns has called the transport with that target, exactly once,
    as its first step after reading the clock; and when the transport
    answers with an error, whatever its reason, the text of that error is
    the one value sent. *)
Theorem transport_called_for_every_target
    (url : string) (ch : chan) (l : list (Time * Action)) :
  walk (fetch url ch) l Return ->
  exists t0 t1 r rest,
    l = (t0, ANow t0) :: (t1, AGet url r) :: rest /\
    (forall t u x, ~ In (t, AGet u x) rest) /\
    (forall e, r = inr e -> sent_values l = [(ch, Error e)]).
Proof.
  intros Hw.
  destruct (sender_walk _ _ _ _ _ (fetch_sender url ch) Hw) as (m & Hm & Hcount & _).
  inversion Hm; subst m.
  destruct (fetch_walk_complete url ch l Return Hw) as [Hrun _].
  { intros Hnil. rewrite Hnil in Hcount. discriminate. }
  destruct Hrun as [t0 t1 t2 err | t0 t1 t2 t3 t4 resp n err | t0 t1 t2 t3 t4 t5 resp n];
    do 4 eexists; (split; [reflexivity |]); split;
    try (intros t u x Hin; simpl in Hin;
         repeat (destruct Hin as [Hin | Hin]; [discriminate |]); contradiction);
    intros e He; inversion He; subst.
  rewrite Sprint_error. reflexivity.
Qed.

(** The malformed target of the counterexample: the transport is called,
    and its error is the result. *)
Lemma transport_called_for_every_target_witness :
  exists l,
    walk (fetch "://no-scheme" 0%nat) l Return /\
    exists t0 t1 r rest, l = (t0, ANow t0) :: (t1, AGet "://no-scheme" r) :: rest.
Proof.
  pose (e := mkError "missing protocol scheme").
  pose (l := [(0, ANow 0); (0, AGet "://no-scheme" (inr e));
              (0, ASend 0%nat (Sprint [VError e]))]).
  assert (Hw : walk (fetch "://no-scheme" 0%nat) l Return).
  { eapply (walk_step _ 0 0%nat RNone); [reflexivity |].
    eapply (walk_step _ 0 0%nat (RGet (inr e))); [reflexivity |].
    eapply (walk_step _ 0 0%nat RNone); [reflexivity |].
    apply walk_done. }
  exists l. split; [exact Hw |].
  destruct (transport_called_for_every_target _ _ _ Hw) as (t0 & t1 & r & rest & Hl & _).
  exists t0, t1, r, rest. exact Hl.
Defined.

(** C9.  Whatever the schedule, once [main] has returned: the values
    [main] received are the values handed over, in the order of the
    hand-overs; the output is one line per hand-over in that same order,
    followed by the summary; and the senders, in the order of their
    hand-overs, are the goroutines [1..N] in some order.  That order is the
    order of completion and not of the arguments: for every order of the
    goroutines [1..N] there is a schedule in which they complete, and are
    printed, in that order. *)
Theorem results_in_completion_order (args : list string) :
  (forall cs s,
      exec (boot (main args)) cs = Some s ->
      finished s = true ->
      map snd (deliveries (log s)) = map snd (comms (log s)) /\
      (exists d,
          stdout s = map (fun x : nat * string => (snd x ++ nl)%string) (comms (log s))
                     ++ [summary d]) /\
      Permutation (map fst (comms (log s))) (seq 1 (length args)) /\
      StronglySorted Z.le (stamps (log s))) /\
  (forall order,
      Permutation order (seq 1 (length args)) ->
      exists cs s,
        exec (boot (main args)) cs = Some s /\
        finished s = true /\
        map fst (comms (log s)) = order).
Proof.
  split.
  - intros cs s He Hfin.
    destruct (final_state _ _ _ He Hfin) as (ch & t0 & t1 & ts & rs & t2 & t3 & H).
    split; [| split; [| split]].
    + rewrite (set_deliveries _ _ _ _ _ _ _ _ _ H), (set_comms _ _ _ _ _ _ _ _ _ H), map_map.
      reflexivity.
    + exists (Sub t2 t0). exact (settled_stdout _ _ _ _ _ _ _ _ _ H).
    + apply (Permutation_count_occ Nat.eq_dec). intros j.
      rewrite senders_count, count_occ_seq.
      exact (settled_sent _ _ _ _ _ _ _ _ _ H j).
    + exact (set_sorted _ _ _ _ _ _ _ _ _ H).
  - intros order Hperm.
    destruct (any_completion_order args (mkError "connection refused") order Hperm)
      as (s & He & Hfin & Hcomms).
    exists (completion_schedule (length args) (mkError "connection refused") order), s.
    split; [exact He |]. split; [exact Hfin |].
    rewrite Hcomms, map_map. simpl. apply map_id.
Qed.

(** In the sample run the second target completes first, and its result
    is the first line of the output; and there is a run in which the two
    targets complete in the order 2, 1. *)
Lemma results_in_completion_order_witness :
  (exists s,
      exec (boot (main sample_args)) sample_schedule = Some s /\
      finished s = true /\
      map fst (comms (log s)) = [2%nat; 1%nat] /\
      exists d,
        stdout s = map (fun x : nat * string => (snd x ++ nl)%string) (comms (log s))
                   ++ [summary d]) /\
  (exists cs s,
      exec (boot (main sample_args)) cs = Some s /\
      finished s = true /\
      map fst (comms (log s)) = [2%nat; 1%nat]).
Proof.
  destruct (results_in_completion_order sample_args) as [Hall Hsome].
  split.
  - destruct sample_run as (s & He & Hdone & Hcomms & _).
    exists s. split; [exact He |]. split; [exact Hdone |].
    split; [rewrite Hcomms; reflexivity |].
    exact (proj1 (proj2 (Hall sample_schedule s He Hdone))).
  - apply Hsome. apply perm_swap.
Defined.

(** C10.  On a run of [fetch] where the body read fails, the body is
    closed right after the read and before anything is sent, and the one
    value sent is the text [while reading %s: %v], not interpreted, with
    the target and the text of the error appended to it without a space:
    that is what [Sprint] makes of its three operands, where [Sprintf]
    would have filled the target and the error in for the two verbs. *)
Theorem failed_read_message
    (url : string) (ch : chan) (l : list (Time * Action))
    (t : Time) (body : ReadCloser) (n : Z) (e : error) :
  walk (fetch url ch) l Return ->
  In (t, ACopy body n (Some e)) l ->
  (exists t0 t1 t3 t4 resp,
      body = Body resp /\
      l = [(t0, ANow t0); (t1, AGet url (inl resp));
           (t, ACopy body n (Some e)); (t3, AClose body);
           (t4, ASend ch ("while reading %s: %v" ++ url ++ Error e)%string)]) /\
  Sprint [VString "while reading %s: %v"; VString url; VError e]
  = ("while reading %s: %v" ++ url ++ Error e)%string /\
  Sprintf "while reading %s: %v" [VString url; VError e]
  = ("while reading " ++ url ++ ": " ++ Error e)%string.
Proof.
  intros Hw Hin.
  split; [| split; [apply Sprint_string_string_error | apply Sprintf_while_reading]].
  destruct (sender_walk _ _ _ _ _ (fetch_sender url ch) Hw) as (m & Hm & Hcount & _).
  inversion Hm; subst m.
  destruct (fetch_walk_complete url ch l Return Hw) as [Hrun _].
  { intros Hnil. rewrite Hnil in Hcount. discriminate. }
  destruct Hrun as [t0 t1 t2 err | t0 t1 t2 t3 t4 resp n0 err | t0 t1 t2 t3 t4 t5 resp n0];
    simpl in Hin;
    repeat (destruct Hin as [Hin | Hin]; [try discriminate |]);
    try contradiction.
  inversion Hin; subst.
  exists t0, t1, t3, t4, resp. split; [reflexivity |].
  rewrite Sprint_string_string_error. reflexivity.
Qed.

(** A body read that breaks off: what is sent. *)
Lemma failed_read_message_witness :
  exists l,
    walk (fetch "http://a.example" 0%nat) l Return /\
    sent_values l
    = [(0%nat, "while reading %s: %vhttp://a.exampleunexpected EOF"%string)].
Proof.
  pose (e := mkError "unexpected EOF").
  pose (l := [(0, ANow 0); (20000000, AGet "http://a.example" (inl (mkResponse 7%nat)));
              (30000000, ACopy 7%nat 100 (Some e)); (30000000, AClose 7%nat);
              (30000000,
               ASend 0%nat "while reading %s: %vhttp://a.exampleunexpected EOF")]).
  assert (Hw : walk (fetch "http://a.example" 0%nat) l Return).
  { eapply (walk_step _ 0 0%nat RNone); [reflexivity |].
    eapply (walk_step _ 20000000 0%nat (RGet (inl (mkResponse 7%nat)))); [reflexivity |].
    eapply (walk_step _ 30000000 0%nat (RCopy 100 (Some e))); [reflexivity |].
    eapply (walk_step _ 30000000 0%nat RNone); [reflexivity |].
    eapply (walk_step _ 30000000 0%nat RNone); [reflexivity |].
    apply walk_done. }
  exists l. split; [exact Hw |].
  destruct (failed_read_message _ _ _ 30000000 7%nat 100 e Hw) as ((t0 & t1 & t3 & t4 & resp & _ & Hl) & _).
  { right. right. left. reflexivity. }
  rewrite Hl. reflexivity.
Defined.

End FetchallSpec.


(** * The other programs *)

(** ** Fetch *)

Module FetchFacts.
Import GoFmt Lang Fetch GoFmtFacts.

Lemma Sprintf_bytes (b : string) : Sprintf "%s" [VString b] = b.
Proof.
  unfold Sprintf. lazy -[pad_left String.append].
  rewrite pad_left_0. apply append_empty.
Qed.

Lemma Sprintf_fetch_error e :
  Sprintf ("fetch: %v" ++ nl) [VError e] = ("fetch: " ++ Error e ++ nl)%string.
Proof.
  unfold Sprintf.
  let f := eval lazy in ("fetch: %v" ++ nl)%string in
  change ("fetch: %v" ++ nl)%string with f.
  lazy -[pad_left String.append nl Error].
  rewrite pad_left_0. reflexivity.
Qed.

Lemma Sprintf_fetch_reading (url : string) e :
  Sprintf ("fetch: reading %s: %v" ++ nl) [VString url; VError e]
  = ("fetch: reading " ++ url ++ ": " ++ Error e ++ nl)%string.
Proof.
  unfold Sprintf.
  let f := eval lazy in ("fetch: reading %s: %v" ++ nl)%string in
  change ("fetch: reading %s: %v" ++ nl)%string with f.
  lazy -[pad_left String.append nl Error].
  rewrite !pad_left_0. reflexivity.
Qed.

(** One target that goes well: its body is printed, three calls are made,
    and the loop goes on. *)
Lemma fetch_each_good_step w i url rest p b :
  content w i url = Some b ->
  fetch_each w i (url :: rest) p
  = fetch_each w (S i) rest
      {| out := out p ++ [b]; err := err p;
         calls := calls p ++ calls_for w i url; exited := exited p |}.
Proof.
  unfold content, calls_for. intros Hb. simpl.
  destruct (http_get w i url) as [resp | e]; [| discriminate].
  destruct (read_all w (Body resp)) as [b' [e|]]; [discriminate |].
  inversion Hb; subst b'.
  unfold Printf, call. simpl. rewrite Sprintf_bytes, <- app_assoc. reflexivity.
Qed.

(** Targets that all go well. *)
Lemma fetch_each_good w urls : forall i p,
  (forall k url, urls !! k = Some url -> is_Some (content w (i + k) url)) ->
  fetch_each w i urls p
  = {| out := out p ++ bodies w i urls; err := err p;
       calls := calls p ++ good_calls w i urls; exited := exited p |}.
Proof.
  induction urls as [|url rest IH]; intros i p Hgood.
  - destruct p. unfold bodies, good_calls. simpl. rewrite !app_nil_r. reflexivity.
  - destruct (Hgood 0%nat url eq_refl) as (b & Hb).
    rewrite Nat.add_0_r in Hb.
    rewrite (fetch_each_good_step w i url rest p b Hb), IH.
    + simpl. unfold bodies, good_calls. simpl.
      rewrite Nat.add_0_r, Hb. simpl.
      rewrite <- !app_assoc. simpl.
      f_equal.
      * do 2 f_equal. apply imap_ext. intros k u _. unfold compose.
        replace (i + S k)%nat with (S i + k)%nat by lia. reflexivity.
      * do 3 f_equal. apply imap_ext. intros k u _. unfold compose.
        replace (i + S k)%nat with (S i + k)%nat by lia. reflexivity.
    + intros k u Hk. replace (S i + k)%nat with (i + S k)%nat by lia.
      apply Hgood. exact Hk.
Qed.

(** The loop over a list that starts with targets that go well. *)
Lemma fetch_each_app w done rest : forall i p,
  (forall k url, done !! k = Some url -> is_Some (content w (i + k) url)) ->
  fetch_each w i (done ++ rest) p
  = fetch_each w (i + length done) rest (fetch_each w i done p).
Proof.
  induction done as [|url done IH]; intros i p Hgood.
  - simpl. rewrite Nat.add_0_r. reflexivity.
  - destruct (Hgood 0%nat url eq_refl) as (b & Hb).
    rewrite Nat.add_0_r in Hb.
    change ((url :: done) ++ rest) with (url :: (done ++ rest)).
    rewrite !(fetch_each_good_step w i url _ p b Hb), IH.
    + cbn [length]. f_equal. lia.
    + intros k u Hk. replace (S i + k)%nat with (i + S k)%nat by lia.
      apply Hgood. exact Hk.
Qed.

(** One target that fails: a line on standard error, exit status 1, and
    nothing of what follows is looked at. *)
Lemma fetch_each_bad_step w i url rest p :
  content w i url = None ->
  fetch_each w i (url :: rest) p
  = {| out := out p; err := err p ++ [complaint w i url];
       calls := calls p ++ calls_for w i url ++ [CExit 1]; exited := Some 1 |}.
Proof.
  unfold content, calls_for, complaint. intros Hbad. simpl.
  destruct (http_get w i url) as [resp | e].
  - destruct (read_all w (Body resp)) as [b [e|]]; [| discriminate].
    unfold Exit, Fprintf_stderr, call. simpl.
    rewrite Sprintf_fetch_reading, <- !app_assoc. reflexivity.
  - unfold Exit, Fprintf_stderr, call. simpl.
    rewrite Sprintf_fetch_error, <- !app_assoc. reflexivity.
Qed.

Lemma requested_app cs ds : requested (cs ++ ds) = requested cs ++ requested ds.
Proof. apply omap_app. Qed.

Lemma read_bodies_app cs ds : read_bodies (cs ++ ds) = read_bodies cs ++ read_bodies ds.
Proof. apply omap_app. Qed.

Lemma closed_bodies_app cs ds :
  closed_bodies (cs ++ ds) = closed_bodies cs ++ closed_bodies ds.
Proof. apply omap_app. Qed.

Lemma requested_calls_for w i url : requested (calls_for w i url) = [url].
Proof. unfold calls_for. destruct (http_get w i url); reflexivity. Qed.

Lemma closed_calls_for w i url :
  closed_bodies (calls_for w i url) = read_bodies (calls_for w i url).
Proof. unfold calls_for. destruct (http_get w i url); reflexivity. Qed.

Lemma good_calls_cons w i url urls :
  good_calls w i (url :: urls) = calls_for w i url ++ good_calls w (S i) urls.
Proof.
  unfold good_calls. simpl. rewrite Nat.add_0_r. do 2 f_equal.
  apply imap_ext. intros k u _. unfold compose.
  replace (i + S k)%nat with (S i + k)%nat by lia. reflexivity.
Qed.

Lemma requested_good_calls w urls : forall i, requested (good_calls w i urls) = urls.
Proof.
  induction urls as [|url urls IH]; intros i; [reflexivity |].
  rewrite good_calls_cons, requested_app, requested_calls_for, IH. reflexivity.
Qed.

Lemma closed_good_calls w urls : forall i,
  closed_bodies (good_calls w i urls) = read_bodies (good_calls w i urls).
Proof.
  induction urls as [|url urls IH]; intros i; [reflexivity |].
  rewrite good_calls_cons, closed_bodies_app, read_bodies_app, closed_calls_for, IH.
  reflexivity.
Qed.

Lemma bodies_length w i urls : length (bodies w i urls) = length urls.
Proof. unfold bodies. apply length_imap. Qed.

(** Either every target goes well, or there is a first one that fails. *)
Lemma first_failure w urls : forall i,
  (forall k url, urls !! k = Some url -> is_Some (content w (i + k) url))
  \/ exists done url rest,
       urls = done ++ url :: rest
       /\ (forall k u, done !! k = Some u -> is_Some (content w (i + k) u))
       /\ content w (i + length done) url = None.
Proof.
  induction urls as [|url urls IH]; intros i.
  - left. intros k u Hk. destruct k; discriminate.
  - destruct (content w i url) as [b|] eqn:Hb.
    + destruct (IH (S i)) as [Hall | (done & u & rest & -> & Hdone & Hbad)].
      * left. intros [|k] u Hk.
        -- inversion Hk; subst u. rewrite Nat.add_0_r, Hb. eexists; reflexivity.
        -- replace (i + S k)%nat with (S i + k)%nat by lia. apply Hall. exact Hk.
      * right. exists (url :: done), u, rest. split; [reflexivity | split].
        -- intros [|k] u' Hk.
           ++ inversion Hk; subst u'. rewrite Nat.add_0_r, Hb. eexists; reflexivity.
           ++ replace (i + S k)%nat with (S i + k)%nat by lia. apply Hdone. exact Hk.
        -- cbn [length]. replace (i + S (length done))%nat
             with (S i + length done)%nat by lia. exact Hbad.
    + right. exists [], url, urls. split; [reflexivity | split].
      * intros k u Hk. destruct k; discriminate.
      * simpl. rewrite Nat.add_0_r. exact Hb.
Qed.

(** The whole run when every target goes well. *)
Lemma main_good w args :
  (forall k url, args !! k = Some url -> is_Some (content w k url)) ->
  main w args
  = {| out := bodies w 0 args; err := []; calls := good_calls w 0 args;
       exited := None |}.
Proof.
  intros Hgood. unfold main. rewrite fetch_each_good by exact Hgood. reflexivity.
Qed.

(** The whole run when a target fails after others that went well. *)
Lemma main_bad w done url rest :
  (forall k u, done !! k = Some u -> is_Some (content w k u)) ->
  content w (length done) url = None ->
  main w (done ++ url :: rest)
  = {| out := bodies w 0 done;
       err := [complaint w (length done) url];
       calls := good_calls w 0 done ++ calls_for w (length done) url ++ [CExit 1];
       exited := Some 1 |}.
Proof.
  intros Hgood Hbad. unfold main.
  rewrite (fetch_each_app w done (url :: rest) 0 start Hgood).
  rewrite (fetch_each_good w done 0 start Hgood).
  rewrite fetch_each_bad_step by exact Hbad. reflexivity.
Qed.

(** The sample network: two targets that go well. *)
Lemma sample_good :
  forall k url, ["good"; "good"]%string !! k = Some url ->
    is_Some (content sample_world k url).
Proof.
  intros [|[|k]] url Hk; try discriminate; inversion Hk; subst url;
    eexists; reflexivity.
Qed.

Lemma sample_good_one :
  forall k url, ["good"]%string !! k = Some url ->
    is_Some (content sample_world k url).
Proof.
  intros [|k] url Hk; try discriminate; inversion Hk; subst url;
    eexists; reflexivity.
Qed.

(** X5.  When every target can be fetched and read, the program prints the
    bodies in the order of the arguments, one per target, writes nothing
    to standard error, requests exactly the targets given, in order, and
    returns from [main] without calling [os.Exit]. *)
Theorem fetch_prints_every_body w args :
  (forall k url, args !! k = Some url -> is_Some (content w k url)) ->
  out (main w args) = bodies w 0 args
  /\ length (out (main w args)) = length args
  /\ err (main w args) = []
  /\ requested (calls (main w args)) = args
  /\ exited (main w args) = None.
Proof.
  intros Hgood. rewrite (main_good w args Hgood). simpl.
  rewrite bodies_length, requested_good_calls. repeat split.
Qed.

Lemma fetch_prints_every_body_witness :
  out (main sample_world ["good"; "good"]%string) = ["hello"; "hello"]%string
  /\ exited (main sample_world ["good"; "good"]%string) = None.
Proof.
  destruct (fetch_prints_every_body sample_world ["good"; "good"]%string sample_good)
    as (Hout & _ & _ & _ & Hexit).
  split; [rewrite Hout; reflexivity | exact Hexit].
Defined.

(** X6.  The program stops at the first target that fails: the bodies of the
    targets before it are printed, one line about the failure goes to
    standard error, the exit status is 1, and the targets after it are
    never requested, whatever they are. *)
Theorem fetch_stops_at_first_failure w done url rest :
  (forall k u, done !! k = Some u -> is_Some (content w k u)) ->
  content w (length done) url = None ->
  out (main w (done ++ url :: rest)) = bodies w 0 done
  /\ err (main w (done ++ url :: rest)) = [complaint w (length done) url]
  /\ requested (calls (main w (done ++ url :: rest))) = done ++ [url]
  /\ exited (main w (done ++ url :: rest)) = Some 1
  /\ main w (done ++ url :: rest) = main w (done ++ [url]).
Proof.
  intros Hgood Hbad.
  rewrite (main_bad w done url rest Hgood Hbad), (main_bad w done url [] Hgood Hbad).
  simpl. rewrite !requested_app, requested_good_calls, requested_calls_for.
  repeat split.
Qed.

Lemma fetch_stops_at_first_failure_witness :
  out (main sample_world ["good"; "bad"; "good"]%string) = ["hello"]%string
  /\ err (main sample_world ["good"; "bad"; "good"]%string)
     = ["fetch: connection refused" ++ nl]%string
  /\ requested (calls (main sample_world ["good"; "bad"; "good"]%string))
     = ["good"; "bad"]%string.
Proof.
  destruct (fetch_stops_at_first_failure sample_world ["good"]%string "bad"%string
              ["good"]%string sample_good_one eq_refl)
    as (Hout & Herr & Hreq & _ & _).
  split; [exact (eq_trans Hout eq_refl) | split; [exact (eq_trans Herr eq_refl) | exact Hreq]].
Defined.

(** X7.  Whatever the network does, the program ends in one of two ways:
    either it returns from [main], having printed one body per argument
    and nothing on standard error, or it exits with status 1, having
    printed fewer bodies than arguments and exactly one line on standard
    error. *)
Theorem fetch_two_outcomes w args :
  (exited (main w args) = None
   /\ length (out (main w args)) = length args
   /\ err (main w args) = [])
  \/ (exited (main w args) = Some 1
      /\ (length (out (main w args)) < length args)%nat
      /\ length (err (main w args)) = 1%nat).
Proof.
  destruct (first_failure w args 0) as [Hgood | (done & url & rest & -> & Hgood & Hbad)].
  - left. rewrite (main_good w args Hgood). simpl. rewrite bodies_length.
    repeat split.
  - right. rewrite (main_bad w done url rest Hgood Hbad). simpl.
    rewrite bodies_length, length_app. simpl. repeat split. lia.
Qed.

(** X8.  Every body the program reads is closed, also on the runs that end in
    [os.Exit]: the bodies closed are the bodies read, in the same order. *)
Theorem fetch_closes_what_it_reads w args :
  closed_bodies (calls (main w args)) = read_bodies (calls (main w args)).
Proof.
  destruct (first_failure w args 0) as [Hgood | (done & url & rest & -> & Hgood & Hbad)].
  - rewrite (main_good w args Hgood). simpl. apply closed_good_calls.
  - rewrite (main_bad w done url rest Hgood Hbad). simpl.
    rewrite !closed_bodies_app, !read_bodies_app, closed_good_calls, closed_calls_for.
    reflexivity.
Qed.

End FetchFacts.

(** ** Dup *)

Module DupFacts.
Import GoFmt Dup GoFmtFacts.





























End DupFacts.

(** ** fetchall: bodies, elapsed times, and the order of starting *)

Module FetchallMore.
Import GoFmt Lang Sched Fetchall Ledger.
Import GoFmtFacts LangFacts SchedFacts FetchallFacts.

Lemma proj_In t j a (l : list Entry) : In (t, a) (proj j l) -> In (t, j, a) l.
Proof.
  induction l as [|[[t' i] a'] l IH]; [intros [] |].
  unfold proj in *. simpl.
  destruct (decide (i = j)) as [-> | Hne]; simpl.
  - intros [Heq | Hin]; [left; inversion Heq; reflexivity | right; apply IH; exact Hin].
  - intros Hin. right. apply IH. exact Hin.
Qed.

(** A hand-over is one step: the value is taken at the clock reading at
    which it is handed. *)
Lemma handover_step s c s' :
  handed (log s) = taken (log s) -> transition s c s' ->
  handed (log s') = taken (log s').
Proof.
  intros H Ht.
  destruct Ht as [s i dt r p a p' Hfin Hdt Hp Hf Hc
                 | s i j dt ch v k k' Hfin Hdt Hij Hi Hj]; simpl.
  - unfold handed, taken in *. rewrite !omap_app, H.
    destruct a; simpl in Hc; try discriminate; reflexivity.
  - unfold handed, taken in *. rewrite !omap_app, H. reflexivity.
Qed.

Lemma handover_exec p0 cs s :
  exec (boot p0) cs = Some s -> handed (log s) = taken (log s).
Proof.
  apply (exec_invariant (fun s => handed (log s) = taken (log s))).
  - intros s1 c s2. apply handover_step.
  - reflexivity.
Qed.

Lemma send_in_handed t j c v (l : list Entry) :
  In (t, j, ASend c v) l -> In (t, c, v) (handed l).
Proof.
  induction l as [|[[t' i] a] l IH]; [intros [] |].
  unfold handed in *. simpl. intros [Heq | Hin].
  - inversion Heq; subst. left. reflexivity.
  - destruct a; simpl; try (apply IH; exact Hin). right. apply IH. exact Hin.
Qed.

Lemma taken_in_log t c v (l : list Entry) :
  In (t, c, v) (taken l) -> exists j, In (t, j, ARecv c v) l.
Proof.
  induction l as [|[[t' i] a] l IH]; [intros [] |].
  unfold taken in *. simpl.
  destruct a; simpl; try (intros Hin; destruct (IH Hin) as (j & Hj); exists j; right; exact Hj).
  intros [Heq | Hin].
  - inversion Heq; subst. exists i. left. reflexivity.
  - destruct (IH Hin) as (j & Hj). exists j. right. exact Hj.
Qed.

(** [main] obtains, reads and closes no body. *)
Lemma main_actions_no_body (l : list (Time * Action)) :
  Forall (fun e => main_action (snd e) = true) l ->
  opened_in l = [] /\ read_in l = [] /\ closed_in l = [].
Proof.
  induction 1 as [|[t a] l Ha _ IH]; [repeat split |].
  unfold opened_in, read_in, closed_in in *. simpl in *.
  destruct a; simpl in *; try discriminate; exact IH.
Qed.

(** A complete run of [fetch] reads and closes the body it obtained, if
    any, and nothing else. *)
Lemma fetch_run_bodies url ch l :
  fetch_run url ch l -> read_in l = opened_in l /\ closed_in l = opened_in l.
Proof. intros []; split; reflexivity. Qed.

(** In a sorted run, what comes later in the list is not earlier in
    time. *)
Lemma sorted_later (l1 l2 : list (Time * Action)) t a t' a' :
  StronglySorted Z.le (map fst (l1 ++ (t, a) :: l2)) ->
  In (t', a') l2 -> t <= t'.
Proof.
  intros Hs Hin. rewrite map_app in Hs. simpl in Hs.
  induction (map fst l1) as [|x xs IH]; simpl in Hs.
  - inversion Hs as [|? ? _ Hall]; subst.
    rewrite List.Forall_forall in Hall. apply Hall.
    apply (in_map fst _ _ Hin).
  - inversion Hs; subst. apply IH. assumption.
Qed.

(** In a complete run of [fetch], the steps on a body come in the order
    obtain, read, close, and the value is sent last. *)
Lemma fetch_run_last url ch l :
  fetch_run url ch l -> exists l' t v, l = l' ++ [(t, ASend ch v)].
Proof.
  intros [t0 t1 t2 err | t0 t1 t2 t3 t4 resp n err | t0 t1 t2 t3 t4 t5 resp n].
  - exists [(t0, ANow t0); (t1, AGet url (inr err))], t2. eexists. reflexivity.
  - exists [(t0, ANow t0); (t1, AGet url (inl resp));
            (t2, ACopy (Body resp) n (Some err)); (t3, AClose (Body resp))], t4.
    eexists. reflexivity.
  - exists [(t0, ANow t0); (t1, AGet url (inl resp));
            (t2, ACopy (Body resp) n None); (t3, AClose (Body resp));
            (t4, ASince (Sub t4 t0))], t5.
    eexists. reflexivity.
Qed.

Lemma fetch_run_closes url ch l t u resp :
  fetch_run url ch l -> In (t, AGet u (inl resp)) l ->
  exists l1 l2 l3 t2 n e t3,
    l = l1 ++ (t, AGet u (inl resp)) :: l2
    /\ l2 = (t2, ACopy (Body resp) n e) :: (t3, AClose (Body resp)) :: l3.
Proof.
  intros [t0 t1 t2 err | t0 t1 t2 t3 t4 resp' n err | t0 t1 t2 t3 t4 t5 resp' n] Hin;
    simpl in Hin;
    repeat (destruct Hin as [Heq | Hin]; [try discriminate; inversion Heq; subst |]);
    try contradiction.
  - exists [(t0, ANow t0)]. do 6 eexists. split; reflexivity.
  - exists [(t0, ANow t0)]. do 6 eexists. split; reflexivity.
Qed.

(** The fetch goroutine of a log entry. *)
Lemma settled_fetcher args s ch t0 t1 ts rs t2 t3 t j a :
  settled args s ch t0 t1 ts rs t2 t3 ->
  In (t, j, a) (log s) ->
  j <> 0%nat ->
  exists i url, j = S i /\ args !! i = Some url /\ fetch_run url ch (proj j (log s)).
Proof.
  intros H Hin Hj.
  pose proof (set_ids _ _ _ _ _ _ _ _ _ H) as Hids.
  rewrite List.Forall_forall in Hids. specialize (Hids _ Hin). simpl in Hids.
  destruct j as [|i]; [contradiction |].
  destruct (lookup_lt_is_Some_2 args i) as (url & Hurl); [lia |].
  exists i, url. split; [reflexivity |]. split; [exact Hurl |].
  apply (set_fetch _ _ _ _ _ _ _ _ _ H). exact Hurl.
Qed.

(** In a settled process everything happens between the two clock
    readings of [main], but for the summary. *)
Lemma settled_span args cs s ch t0 t1 ts rs t2 t3 :
  exec (boot (main args)) cs = Some s ->
  settled args s ch t0 t1 ts rs t2 t3 ->
  Forall (fun t => t0 <= t) (stamps (log s))
  /\ In (t2, 0%nat, ASince (Sub t2 t0)) (log s)
  /\ (forall t c v, In (t, 0%nat, ARecv c v) (log s) -> t <= t2)
  /\ (forall t d, In (t, 0%nat, ASince d) (log s) -> t = t2 /\ d = Sub t2 t0).
Proof.
  intros He H.
  pose proof (set_main _ _ _ _ _ _ _ _ _ H) as Hmain.
  pose proof (set_sorted _ _ _ _ _ _ _ _ _ H) as Hsorted.
  assert (Hfrom : Forall (fun t => t0 <= t) (stamps (log s))).
  { destruct (log_head _ _ _ He) as [(Hnil & _) | (t & a & rest & Hlog)].
    - rewrite Hnil in Hmain. discriminate.
    - rewrite Hlog in Hmain, Hsorted |- *. unfold proj, main_run in Hmain.
      simpl in Hmain. inversion Hmain; subst. simpl in *.
      inversion Hsorted; subst. constructor; [lia | assumption]. }
  pose proof (proj_sorted 0 _ Hsorted) as Hrun. rewrite Hmain in Hrun.
  assert (Hsplit : main_run args ch t0 t1 ts rs t2 t3
                   = ((t0, ANow t0) :: (t1, AMake ch) :: spawn_run ch ts args
                        ++ collect_run ch rs)
                     ++ (t2, ASince (Sub t2 t0)) :: [(t3, APrint (summary (Sub t2 t0)))]).
  { unfold main_run. simpl. rewrite <- app_assoc. reflexivity. }
  split; [exact Hfrom |]. split; [| split].
  - apply proj_In. rewrite Hmain, Hsplit. apply in_or_app. right. left. reflexivity.
  - intros t c v Hin. apply In_proj in Hin. rewrite Hmain in Hin.
    unfold main_run in Hin.
    destruct Hin as [Heq | [Heq | Hin]]; try discriminate.
    apply in_app_or in Hin. destruct Hin as [Hin | Hin].
    { exfalso. clear - Hin. unfold spawn_run in Hin.
      revert ts Hin. induction args as [|u us IH]; intros [|x xs] Hin; simpl in Hin;
        try contradiction.
      destruct Hin as [Heq | Hin]; [discriminate | exact (IH _ Hin)]. }
    apply in_app_or in Hin. destruct Hin as [Hin | Hin].
    2:{ simpl in Hin. destruct Hin as [Heq | [Heq | []]]; discriminate. }
    unfold main_run in Hrun. simpl in Hrun.
    inversion Hrun as [|? ? Hrun1 _]; subst.
    inversion Hrun1 as [|? ? Hrun2 _]; subst.
    rewrite map_app in Hrun2.
    assert (Htail : StronglySorted Z.le
              (map fst (collect_run ch rs
                          ++ [(t2, ASince (Sub t2 t0)); (t3, APrint (summary (Sub t2 t0)))]))).
    { clear - Hrun2. induction (map fst (spawn_run ch ts args)) as [|x l IH]; [exact Hrun2 |].
      simpl in Hrun2. inversion Hrun2; subst. apply IH. assumption. }
    destruct (collect_run_sorted _ _ _ Htail) as [Hrs _].
    clear - Hin Hrs. induction Hrs as [|r rs' [Hr1 Hr2] _ IH]; [contradiction |].
    simpl in Hin. destruct Hin as [Heq | [Heq | Hin]]; try discriminate.
    + inversion Heq; subst. simpl in Hr2. inversion Hr2; subst. lia.
    + apply IH. exact Hin.
  - intros t d Hin. apply In_proj in Hin. rewrite Hmain in Hin.
    unfold main_run in Hin.
    destruct Hin as [Heq | [Heq | Hin]]; try discriminate.
    apply in_app_or in Hin. destruct Hin as [Hin | Hin].
    { exfalso. clear - Hin. unfold spawn_run in Hin.
      revert ts Hin. induction args as [|u us IH]; intros [|x xs] Hin; simpl in Hin;
        try contradiction.
      destruct Hin as [Heq | Hin]; [discriminate | exact (IH _ Hin)]. }
    apply in_app_or in Hin. destruct Hin as [Hin | Hin].
    { exfalso. clear - Hin. induction rs as [|r rs' IH]; [contradiction |].
      simpl in Hin. destruct Hin as [Heq | [Heq | Hin]]; try discriminate.
      apply IH. exact Hin. }
    simpl in Hin. destruct Hin as [Heq | [Heq | []]]; try discriminate.
    inversion Heq; subst. split; reflexivity.
Qed.

(** Runs of [main]: once a value is received, every [go] statement has
    been executed. *)
Lemma spawn_all_begun ch urls k : forall l q,
  walk (spawn_all urls ch k) l q ->
  received_values l <> [] ->
  exists l1 l2,
    l = l1 ++ l2 /\ started_in l1 = map (fun url => fetch url ch) urls
    /\ walk k l2 q.
Proof.
  induction urls as [|url rest IH]; intros l q Hw Hrecv; simpl in Hw.
  - exists [], l. split; [reflexivity |]. split; [reflexivity | exact Hw].
  - inversion Hw as [| ? now fresh r a p' l' ? Hf Hw']; subst.
    + exfalso. apply Hrecv. reflexivity.
    + cbn [fire] in Hf. inversion Hf; subst.
      destruct (IH l' q Hw') as (l1 & l2 & -> & Hst & Hk).
      { intros Hnil. apply Hrecv. unfold received_values in *. simpl. exact Hnil. }
      exists ((now, AGo (fetch url ch)) :: l1), l2.
      split; [reflexivity |]. split; [| exact Hk].
      unfold started_in in *. simpl. f_equal. exact Hst.
Qed.

Lemma collect_all_starts_nothing ch urls k :
  (forall l q, walk k l q -> started_in l = []) ->
  forall l q, walk (collect_all urls ch k) l q -> started_in l = [].
Proof.
  intros Hk. induction urls as [|url rest IH]; intros l q Hw; simpl in Hw.
  - apply (Hk l q Hw).
  - inversion Hw as [| ? now fresh r a p' l' ? Hf Hw']; subst; [reflexivity |].
    cbn [fire] in Hf. destruct r; try discriminate. inversion Hf; subst.
    inversion Hw' as [| ? now' fresh' r' a' p'' l'' ? Hf' Hw'']; subst; [reflexivity |].
    cbn [fire] in Hf'. inversion Hf'; subst.
    unfold started_in. simpl. apply (IH l'' q Hw'').
Qed.

Lemma closing_starts_nothing start (f : Duration -> string) l q :
  walk (TimeSince start (fun d => Stdout (f d) Return)) l q -> started_in l = [].
Proof.
  intros Hl.
  inversion Hl as [| ? n1 f1 r1 a1 p1 l3 ? Hf1 Hw1]; subst; [reflexivity |].
  cbn [fire] in Hf1. inversion Hf1; subst.
  inversion Hw1 as [| ? n2 f2 r2 a2 p2 l4 ? Hf2 Hw2]; subst; [reflexivity |].
  cbn [fire] in Hf2. inversion Hf2; subst.
  inversion Hw2 as [| ? n3 f3 r3 a3 p3 l5 ? Hf3 Hw3]; subst; [reflexivity |].
  cbn [fire] in Hf3. discriminate.
Qed.

Lemma main_begun args l q :
  walk (main args) l q ->
  received_values l <> [] ->
  exists ch, started_in l = map (fun url => fetch url ch) args.
Proof.
  unfold main. intros Hw Hrecv.
  inversion Hw as [| ? now fresh r a p' l' ? Hf Hw']; subst;
    [exfalso; apply Hrecv; reflexivity |].
  cbn [fire] in Hf. inversion Hf; subst. clear Hf.
  inversion Hw' as [| ? now' ch r' a' p'' l'' ? Hf' Hw'']; subst;
    [exfalso; apply Hrecv; reflexivity |].
  cbn [fire] in Hf'. inversion Hf'; subst. clear Hf'.
  destruct (spawn_all_begun _ _ _ _ _ Hw'') as (l1 & l2 & -> & Hst & Hk).
  { intros Hnil. apply Hrecv. unfold received_values in *. simpl. exact Hnil. }
  exists ch. unfold started_in in *. simpl. rewrite omap_app, Hst.
  fold (started_in l2).
  assert (Hnone : started_in l2 = []).
  { refine (collect_all_starts_nothing ch args _ _ l2 q Hk).
    intros l q0 Hl. exact (closing_starts_nothing _ _ _ _ Hl). }
  rewrite Hnone. apply app_nil_r.
Qed.

(** Runs of [main], complete or not: the goroutines started are the
    fetches of the first arguments. *)
Lemma spawn_all_started ch urls k :
  (forall l q, walk k l q -> started_in l = []) ->
  forall l q, walk (spawn_all urls ch k) l q ->
  exists n, started_in l = map (fun url => fetch url ch) (take n urls).
Proof.
  intros Hk. induction urls as [|url rest IH]; intros l q Hw; simpl in Hw.
  - exists 0%nat. apply (Hk l q Hw).
  - inversion Hw as [| ? now fresh r a p' l' ? Hf Hw']; subst.
    + exists 0%nat. reflexivity.
    + cbn [fire] in Hf. inversion Hf; subst.
      destruct (IH l' q Hw') as (n & Hn).
      exists (S n). unfold started_in in *. simpl. f_equal. exact Hn.
Qed.

Lemma main_started args l q :
  walk (main args) l q ->
  exists ch n, started_in l = map (fun url => fetch url ch) (take n args).
Proof.
  unfold main. intros Hw.
  inversion Hw as [| ? now fresh r a p' l' ? Hf Hw']; subst;
    [exists 0%nat, 0%nat; reflexivity |].
  cbn [fire] in Hf. inversion Hf; subst. clear Hf.
  inversion Hw' as [| ? now' ch r' a' p'' l'' ? Hf' Hw'']; subst;
    [exists 0%nat, 0%nat; reflexivity |].
  cbn [fire] in Hf'. inversion Hf'; subst. clear Hf'.
  destruct (spawn_all_started ch args _
              (collect_all_starts_nothing ch args _
                 (fun l q0 Hl => closing_starts_nothing _ _ _ _ Hl))
              l'' q Hw'') as (n & Hn).
  exists ch, n. unfold started_in in *. simpl. exact Hn.
Qed.

Lemma sample_run_begun :
  exists s,
    exec (boot (main sample_args)) sample_beginning = Some s /\
    finished s = false /\
    comms (log s) = [(2%nat, "connection refused"%string)] /\
    length (pool s) = 3%nat.
Proof.
  assert (H : option_map (fun s => (finished s, comms (log s), length (pool s)))
                (exec (boot (main sample_args)) sample_beginning)
              = Some (false, [(2%nat, "connection refused"%string)], 3%nat))
    by (vm_compute; reflexivity).
  destruct (exec (boot (main sample_args)) sample_beginning) as [s|]; [| discriminate].
  simpl in H. injection H as H1 H2 H3.
  exists s. repeat split; assumption.
Qed.

(** X1.  Once [main] has returned, every goroutine has read and closed exactly
    the bodies it obtained, each once and in that order, and every body
    obtained from the transport was closed by the goroutine that obtained
    it, no earlier than it was obtained: no body is left open, whether
    the read went well or not. *)
Theorem no_body_left_open (args : list string) (cs : list Choice) (s : State) :
  exec (boot (main args)) cs = Some s ->
  finished s = true ->
  (forall j, read_in (proj j (log s)) = opened_in (proj j (log s))
             /\ closed_in (proj j (log s)) = opened_in (proj j (log s))) /\
  (forall t j url resp,
      In (t, j, AGet url (inl resp)) (log s) ->
      exists t2 n e t3,
        t <= t2 /\ t2 <= t3 /\
        In (t2, j, ACopy (Body resp) n e) (log s) /\
        In (t3, j, AClose (Body resp)) (log s)).
Proof.
  intros He Hfin.
  destruct (final_state _ _ _ He Hfin) as (ch & t0 & t1 & ts & rs & t2 & t3 & H).
  split.
  - intros j.
    destruct (decide (j = 0%nat)) as [-> | Hj].
    { rewrite (set_main _ _ _ _ _ _ _ _ _ H).
      destruct (main_actions_no_body _ (main_run_actions args ch t0 t1 ts rs t2 t3))
        as (-> & -> & ->). split; reflexivity. }
    destruct (decide (j < S (length args))%nat) as [Hlt | Hge].
    + destruct j as [|i]; [contradiction |].
      destruct (lookup_lt_is_Some_2 args i) as (url & Hurl); [lia |].
      apply (fetch_run_bodies url ch).
      apply (set_fetch _ _ _ _ _ _ _ _ _ H). exact Hurl.
    + rewrite (proj_outside j (pool s) (log s)).
      * split; reflexivity.
      * rewrite (set_pool _ _ _ _ _ _ _ _ _ H). exact (set_ids _ _ _ _ _ _ _ _ _ H).
      * rewrite (set_pool _ _ _ _ _ _ _ _ _ H). lia.
  - intros t j url resp Hin.
    destruct (settled_entry _ _ _ _ _ _ _ _ _ _ _ _ H Hin eq_refl)
      as (i & u & -> & Hu & Hrun & Hp).
    destruct (fetch_run_closes _ _ _ _ _ _ Hrun Hp)
      as (l1 & l2 & l3 & t2' & n & e & t3' & Hl & ->).
    pose proof (proj_sorted (S i) _ (set_sorted _ _ _ _ _ _ _ _ _ H)) as Hs.
    rewrite Hl in Hs.
    exists t2', n, e, t3'.
    split; [eapply sorted_later; [exact Hs | left; reflexivity] |].
    split.
    { change (l1 ++ (t, AGet url (inl resp)) :: (t2', ACopy (Body resp) n e)
                 :: (t3', AClose (Body resp)) :: l3)
        with (l1 ++ [(t, AGet url (inl resp))] ++ (t2', ACopy (Body resp) n e)
                 :: (t3', AClose (Body resp)) :: l3) in Hs.
      rewrite app_assoc in Hs.
      eapply sorted_later; [exact Hs | left; reflexivity]. }
    split; apply proj_In; rewrite Hl; apply in_or_app; right; simpl; tauto.
Qed.

Lemma no_body_left_open_witness :
  exists s,
    exec (boot (main sample_args)) sample_schedule = Some s /\
    closed_in (proj 1 (log s)) = opened_in (proj 1 (log s)).
Proof.
  destruct sample_run as (s & He & Hdone & _).
  exists s. split; [exact He |].
  destruct (no_body_left_open sample_args sample_schedule s He Hdone) as [Hall _].
  exact (proj2 (Hall 1%nat)).
Defined.

(** X2.  Once [main] has returned, it has measured one total elapsed time, and
    every elapsed time measured by a fetch goroutine lies between zero
    and that total: no target is reported to have taken longer than the
    whole run. *)
Theorem total_elapsed_covers_each (args : list string) (cs : list Choice) (s : State) :
  exec (boot (main args)) cs = Some s ->
  finished s = true ->
  exists t total,
    In (t, 0%nat, ASince total) (log s) /\
    forall t' j d, In (t', j, ASince d) (log s) -> 0 <= d <= total.
Proof.
  intros He Hfin.
  destruct (final_state _ _ _ He Hfin) as (ch & t0 & t1 & ts & rs & t2 & t3 & H).
  destruct (settled_span _ _ _ _ _ _ _ _ _ _ He H) as (Hfrom & Hsince & Hrecv & Hone).
  pose proof (set_sorted _ _ _ _ _ _ _ _ _ H) as Hsorted.
  rewrite List.Forall_forall in Hfrom.
  assert (Hstart : forall t j a, In (t, j, a) (log s) -> t0 <= t).
  { intros t j a Hin. apply Hfrom. unfold stamps.
    apply (in_map (fun e : Entry => fst (fst e)) _ _ Hin). }
  pose proof (Hstart _ _ _ Hsince) as Ht2.
  exists t2, (Sub t2 t0). split; [exact Hsince |].
  intros t' j d Hin.
  destruct (decide (j = 0%nat)) as [-> | Hj].
  { destruct (Hone _ _ Hin) as [-> ->]. unfold Sub, maxDuration, minDuration. lia. }
  destruct (settled_fetcher _ _ _ _ _ _ _ _ _ _ _ _ H Hin Hj) as (i & url & -> & Hurl & Hrun).
  pose proof (In_proj _ _ _ _ Hin) as Hp.
  pose proof (proj_sorted (S i) _ Hsorted) as Hs.
  remember (proj (S i) (log s)) as run eqn:Hl.
  destruct Hrun as [u0 u1 u2 err | u0 u1 u2 u3 u4 resp n err | u0 u1 u2 u3 u4 u5 resp n];
    simpl in Hp;
    repeat (destruct Hp as [Heq | Hp]; [try discriminate |]); try contradiction.
  inversion Heq; subst t' d. clear Heq.
  assert (Hnow : In (u0, S i, ANow u0) (log s))
    by (apply proj_In; rewrite <- Hl; left; reflexivity).
  assert (Hsend : exists v, In (u5, S i, ASend ch v) (log s)).
  { eexists. apply proj_In. rewrite <- Hl. do 5 right. left. reflexivity. }
  destruct Hsend as (v & Hsend).
  assert (H45 : u4 <= u5).
  { change [(u0, ANow u0); (u1, AGet url (inl resp)); (u2, ACopy (Body resp) n None);
            (u3, AClose (Body resp)); (u4, ASince (Sub u4 u0));
            (u5, ASend ch (Sprintf "%.2fs %7d %s"
                             [VFloat (Seconds (Sub u4 u0)); VInt n; VString url]))]
      with ([(u0, ANow u0); (u1, AGet url (inl resp)); (u2, ACopy (Body resp) n None);
             (u3, AClose (Body resp))] ++ (u4, ASince (Sub u4 u0)) ::
            [(u5, ASend ch (Sprintf "%.2fs %7d %s"
                              [VFloat (Seconds (Sub u4 u0)); VInt n; VString url]))]) in Hs.
    eapply sorted_later; [exact Hs | left; reflexivity]. }
  assert (H04 : u0 <= u4).
  { eapply (sorted_later []); [exact Hs | do 3 right; left; reflexivity]. }
  assert (H52 : u5 <= t2).
  { pose proof (send_in_handed _ _ _ _ _ Hsend) as Hh.
    rewrite (handover_exec _ _ _ He) in Hh.
    destruct (taken_in_log _ _ _ _ Hh) as (j & Hj').
    destruct (decide (j = 0%nat)) as [-> | Hne].
    - apply (Hrecv _ _ _ Hj').
    - pose proof (set_only _ _ _ _ _ _ _ _ _ H) as Honly.
      rewrite List.Forall_forall in Honly. specialize (Honly _ Hj' Hne).
      discriminate. }
  pose proof (Hstart _ _ _ Hnow) as H00.
  unfold Sub, maxDuration, minDuration. lia.
Qed.

Lemma total_elapsed_covers_each_witness :
  exists s t total,
    exec (boot (main sample_args)) sample_schedule = Some s /\
    In (t, 0%nat, ASince total) (log s).
Proof.
  destruct sample_run as (s & He & Hdone & _).
  destruct (total_elapsed_covers_each sample_args sample_schedule s He Hdone)
    as (t & total & Hin & _).
  exists s, t, total. split; [exact He | exact Hin].
Defined.

(** X3.  At every moment of every run: as soon as one result has been handed
    over, all the fetch goroutines have been started, one per argument
    and in the order of the arguments, all on the same channel; [main]
    does not wait for a result before it has started every fetch. *)
Theorem all_started_before_first_result
    (args : list string) (cs : list Choice) (s : State) :
  exec (boot (main args)) cs = Some s ->
  comms (log s) <> [] ->
  length (pool s) = S (length args) /\
  exists ch, spawned (log s) = map (fun url => fetch url ch) args.
Proof.
  intros He Hcomms.
  destruct (balanced_exec _ _ _ (main_opener args) He) as (_ & Honly & _).
  destruct (consistent_exec _ _ _ He) as [(Hids & Hlen & Hwalk) _ Hcomm _].
  assert (Hrecv : received_values (proj 0 (log s)) <> []).
  { intros Hnil. apply Hcomms.
    rewrite (deliveries_main _ Honly), Hnil in Hcomm. simpl in Hcomm.
    destruct (comms (log s)); [reflexivity | discriminate]. }
  destruct (pool s) as [|m rest] eqn:Hpool; [discriminate |].
  destruct (Hwalk 0%nat m eq_refl) as (o & Ho & Hw).
  simpl in Ho. inversion Ho; subst o.
  destruct (main_begun args _ _ Hw Hrecv) as (ch & Hst).
  rewrite <- (spawned_main _ Honly) in Hst.
  split.
  - rewrite Hlen, Hst, length_map. reflexivity.
  - exists ch. exact Hst.
Qed.

Lemma all_started_before_first_result_witness :
  exists s,
    exec (boot (main sample_args)) sample_beginning = Some s /\
    finished s = false /\
    length (pool s) = 3%nat.
Proof.
  destruct sample_run_begun as (s & He & Hrunning & Hcomms & _).
  exists s. split; [exact He |]. split; [exact Hrunning |].
  apply (all_started_before_first_result sample_args sample_beginning s He).
  rewrite Hcomms. discriminate.
Defined.

(** X4.  At every moment of every run, the goroutines started so far are the
    fetches of the first arguments, in the order of the arguments and all
    on the one channel: there is never more than one goroutine per
    argument, and never one that is not a fetch. *)
Theorem goroutines_are_fetches (args : list string) (cs : list Choice) (s : State) :
  exec (boot (main args)) cs = Some s ->
  (length (pool s) <= S (length args))%nat /\
  exists ch n,
    spawned (log s) = map (fun url => fetch url ch) (take n args) /\
    length (pool s) = S (length (take n args)).
Proof.
  intros He.
  destruct (balanced_exec _ _ _ (main_opener args) He) as (_ & Honly & _).
  destruct (consistent_exec _ _ _ He) as [(Hids & Hlen & Hwalk) _ _ _].
  destruct (pool s) as [|m rest] eqn:Hpool; [discriminate |].
  destruct (Hwalk 0%nat m eq_refl) as (o & Ho & Hw).
  simpl in Ho. inversion Ho; subst o.
  destruct (main_started args _ _ Hw) as (ch & n & Hst).
  rewrite <- (spawned_main _ Honly) in Hst.
  assert (Hpool' : length (m :: rest) = S (length (take n args)))
    by (rewrite Hlen, Hst, length_map; reflexivity).
  split.
  - rewrite Hpool', length_take. lia.
  - exists ch, n. split; [exact Hst | exact Hpool'].
Qed.

Lemma goroutines_are_fetches_witness :
  exists s,
    exec (boot (main sample_args)) sample_beginning = Some s /\
    (length (pool s) <= 3)%nat.
Proof.
  destruct sample_run_begun as (s & He & _).
  exists s. split; [exact He |].
  exact (proj1 (goroutines_are_fetches sample_args sample_beginning s He)).
Defined.

End FetchallMore.
